(** * Level orchestration of pydew-valley-uzh: [src/screens/level.py]

    A shallow embedding of the [Level] class: map loading with spawn
    resolution, map switching, tool dispatch, interaction, event handling,
    the day reset and the per-frame update.

    Conventions of the embedding.
    - Mutable attributes of [self] are fields of the record [Level]; a method
      is a function on that record.  Methods that can raise run in the monad
      [M], whose failures keep the state reached when the exception left.
    - Calls into collaborators whose state the level never reads back
      (warnings, sounds, camera, rain, quaker, drawing, posted events,
      screen switches) are recorded, in call order, in the field [trace].
    - Collaborators whose results the level branches on (the soil grid, the
      cutscene track, fruit generation) are the interface [Collaborators].
    - Coordinates are integers; the level only stores and compares them. *)

From stdpp Require Import base option list gmap strings.
From Stdlib Require Import ZArith Lia.

Local Open Scope string_scope.
Local Open Scope list_scope.
Local Open Scope Z_scope.

(** ** Geometry *)

Definition Pos : Type := Z * Z.

Record Rect := mkRect { rx : Z; ry : Z; rw : Z; rh : Z }.

(** [pygame.Rect.colliderect]: rectangles of zero width or height collide
    with nothing; otherwise the open extents must overlap on both axes
    (sides are normalised with min/max, as pygame does for negative sizes). *)
Definition colliderect (a b : Rect) : bool :=
  if (rw a =? 0) || (rh a =? 0) || (rw b =? 0) || (rh b =? 0) then false
  else
    (Z.min (rx a) (rx a + rw a) <? Z.max (rx b) (rx b + rw b))
    && (Z.min (ry a) (ry a + rh a) <? Z.max (ry b) (ry b + rh b))
    && (Z.max (rx a) (rx a + rw a) >? Z.min (rx b) (rx b + rw b))
    && (Z.max (ry a) (ry a + rh a) >? Z.min (ry b) (ry b + rh b)).

Definition move_rect (dx dy : Z) (r : Rect) : Rect :=
  mkRect (rx r + dx) (ry r + dy) (rw r) (rh r).

(** [pygame.sprite.spritecollide(sprite, group, False, collided)]: the
    members of [group], in the group's iteration order, that [collided]
    accepts. *)
Definition spritecollide {A : Type} (collided : A → bool) (group : list A) : list A :=
  filter (λ s, collided s = true) group.

(** ** Python values used by the level *)

(** A map identifier as the level holds it: [None] or a string
    ([current_map: Map | None], [from_map: str = None]). *)
Definition MapId : Type := option string.

(** Truth value of [if from_map:]: [None] and the empty string are false. *)
Definition truthy (m : MapId) : bool :=
  match m with
  | None => false
  | Some s => negb (String.eqb s "")
  end.

(** A [dict] in insertion order. *)
Definition Dict (V : Type) : Type := list (string * V).

(** [d.get(k)] for a string key. *)
Fixpoint dict_get {V : Type} (d : Dict V) (k : string) : option V :=
  match d with
  | [] => None
  | (k', v) :: d' => if String.eqb k' k then Some v else dict_get d' k
  end.

(** [d.get(k)] for a key that may be [None], which is no key of these
    dicts. *)
Definition dict_get_id {V : Type} (d : Dict V) (k : MapId) : option V :=
  match k with
  | None => None
  | Some s => dict_get d s
  end.

(** [d.values()] in iteration order. *)
Definition dict_values {V : Type} (d : Dict V) : list V := map snd d.

(** ** Sprites and entities *)

(** Interaction sprites and exit warps: a name and a rectangle. *)
Record Sprite := mkSprite { name : string; rect : Rect }.

Definition Fruit : Type := Pos.

(** Modelled from the spec: [Tree] (src/sprites is not part of the sources).
    The level reads [hitbox_rect], [alive] and [fruit_sprites] and calls
    [hit] and [create_fruit]; [hits] counts the calls of [hit]. *)
Record Tree := mkTree {
  tree_hitbox_rect : Rect;
  alive : bool;
  fruit_sprites : list Fruit;
  hits : nat
}.

Definition hit (t : Tree) : Tree :=
  mkTree (tree_hitbox_rect t) (alive t) (fruit_sprites t) (S (hits t)).

(** [for fruit in tree.fruit_sprites: fruit.kill()]: the group ends empty. *)
Definition kill_fruit (t : Tree) : Tree :=
  mkTree (tree_hitbox_rect t) (alive t) [] (hits t).

Record Controls := mkControls {
  DEBUG_SHOW_HITBOXES : Z;
  SHOW_DIALOG : Z;
  ADVANCE_DIALOG : Z
}.

(** Modelled from the spec: [Character]/[Player] (src/sprites is not part of
    the sources).  [is_player] is [isinstance(entity, Player)]; [pos] is the
    position [teleport] sets, and the three rectangles move with it. *)
Record Character := mkCharacter {
  is_player : bool;
  pos : Pos;
  char_rect : Rect;
  hitbox_rect : Rect;
  axe_hitbox : Rect;
  blocked : bool;
  direction : Pos;
  controls : Controls
}.

Definition teleport (p : Pos) (c : Character) : Character :=
  let dx := fst p - fst (pos c) in
  let dy := snd p - snd (pos c) in
  mkCharacter (is_player c) p
    (move_rect dx dy (char_rect c)) (move_rect dx dy (hitbox_rect c))
    (move_rect dx dy (axe_hitbox c)) (blocked c) (direction c) (controls c).

Definition set_blocked (b : bool) (c : Character) : Character :=
  mkCharacter (is_player c) (pos c) (char_rect c) (hitbox_rect c)
    (axe_hitbox c) b (direction c) (controls c).

Definition set_direction (d : Pos) (c : Character) : Character :=
  mkCharacter (is_player c) (pos c) (char_rect c) (hitbox_rect c)
    (axe_hitbox c) (blocked c) d (controls c).

(** ** Enumerations and events *)

(** [FarmingTool]: the three members [apply_tool] names, and every other
    member (the seeds, by the source's comment) under [OTHER]. *)
Inductive FarmingTool := AXE | HOE | WATERING_CAN | OTHER (value : Z).

Inductive GameState := PAUSE | SHOP.

(** A [pygame.event.Event] as [handle_event] looks at it. *)
Inductive PgEvent :=
  | KEYDOWN (key : Z)
  | START_QUAKE (duration : Z)
  | OTHER_EVENT (type : Z).

Definition K_ESCAPE : Z := 27.

Inductive Posted := DIALOG_SHOW (dial : string) | DIALOG_ADVANCE.

Inductive Warning :=
  | NoEntryWarp (game_map current : MapId)
  | NoDefaultSpawnpoint (game_map : MapId)
  | MapNotFound (map_name : MapId).

Inductive Target := AtCutscene | AtPlayer.

Inductive Which := Day | Map.

(** Collaborator calls, as the trace records them. *)
Inductive Event :=
  | EvWarn (w : Warning)
  | EvSound (sound : string)
  | EvSwitchScreen (g : GameState)
  | EvPost (p : Posted)
  | EvQuakerReset
  | EvQuakerStart (duration : Z)
  | EvQuakerUpdate
  | EvCameraChangeSize (size : Pos)
  | EvRainSetFloorSize (size : Pos)
  | EvRainUpdate
  | EvTransitionUpdate (w : Which)
  | EvSpritesUpdate (player_blocked : bool)
  | EvSpritesUpdateBlocked
  | EvDropsUpdate
  | EvCameraUpdate (t : Target)
  | EvZoomUpdate (t : Target)
  | EvDraw (move_things : bool)
  | EvDrawHitboxes.

(** ** Map data *)

(** Modelled from the spec: the tile map of the registry and [GameMap]
    (src/screens/game_map.py is not part of the sources), as the spec's Map
    Descriptor: world size, entry warps by origin, an optional default
    spawnpoint, exit warps, and the trees and interactables of the map. *)
Record Tilemap := mkTilemap {
  tm_size : Pos;
  tm_entry_warps : Dict Pos;
  tm_spawnpoint : option Pos;
  tm_exit_warps : list Sprite;
  tm_trees : list Tree;
  tm_interactions : list Sprite
}.

Record GameMap := mkGameMap {
  size : Pos;
  player_entry_warps : Dict Pos;
  player_spawnpoint : option Pos
}.

(** ** Transitions *)

(** The callables stored in a [Transition]. *)
Inductive Callback :=
  | CbSwitchToCurrentMap            (* lambda: self.switch_to_map(self.current_map) *)
  | CbSwitchToMap (map_name : MapId) (* partial(self.switch_to_map, name) *)
  | CbReset                         (* self.reset *)
  | CbFinishTransition.             (* self.finish_transition *)

(** Modelled from the spec: [Transition] (src/overlay/transition.py is not
    part of the sources).  Idle or Active, with elapsed time and duration;
    [reset] is the replaceable callback that fires once per activation when
    the midpoint is crossed (map switch, day reset), [finish_reset] the one
    that fires when the duration has elapsed; the truth value of a transition
    is whether it is Active. *)
Record Transition := mkTransition {
  active : bool;
  elapsed : Z;
  dur : Z;
  peaked : bool;
  reset_cb : Callback;
  finish_reset : Callback
}.

Definition new_Transition (r f : Callback) (d : Z) : Transition :=
  mkTransition false 0 d false r f.

(** [activate()]: Idle to Active; ignored while Active. *)
Definition activate (t : Transition) : Transition :=
  if active t then t
  else mkTransition true 0 (dur t) false (reset_cb t) (finish_reset t).

Definition set_reset (c : Callback) (t : Transition) : Transition :=
  mkTransition (active t) (elapsed t) (dur t) (peaked t) c (finish_reset t).

Definition set_elapsed (e : Z) (t : Transition) : Transition :=
  mkTransition (active t) e (dur t) (peaked t) (reset_cb t) (finish_reset t).

Definition set_peaked (t : Transition) : Transition :=
  mkTransition (active t) (elapsed t) (dur t) true (reset_cb t) (finish_reset t).

Definition set_idle (t : Transition) : Transition :=
  mkTransition false (elapsed t) (dur t) (peaked t) (reset_cb t) (finish_reset t).

Record Sky := mkSky { start_color : list Z; sky_time : Z * Z }.

(** ** Collaborators the level branches on *)

(** The soil grid ([SoilLayer]), the cutscene track ([SceneAnimation]) and
    fruit generation ([Tree.create_fruit]) live outside the sources; the
    level is written against this interface.  [hoe] and [plant] report
    success; the value of [water] is discarded by the level.  The callback
    [entity.remove_resource] handed to [plant] is the soil grid's to call:
    inventories are outside this model. *)
Class Collaborators (Soil Scene : Type) := {
  soil_reset : Soil → Soil;
  soil_update : Soil → Soil;
  soil_set_raining : bool → Soil → Soil;
  soil_hoe : Pos → Soil → Soil * bool;
  soil_water : Pos → Soil → Soil;
  soil_plant : Pos → FarmingTool → Soil → Soil * bool;
  scene_setup : Tilemap → Scene → Scene;
  scene_start : Scene → Scene;
  scene_active : Scene → bool;
  scene_update : Z → Scene → Scene;
  create_fruit : Tree → list Fruit
}.

(** ** The level *)

Inductive Exn :=
  | KeyError (key : MapId)   (* self.tmx_maps[game_map] *)
  | StopIteration.           (* next(iter(...)) on an empty dict *)

Section LevelModel.

Context {Soil Scene : Type} `{!Collaborators Soil Scene}.

(** The attributes of [Level] its methods read or write.  [all_sprites],
    [collision_sprites] and [drop_sprites] are only handed to collaborators
    (drawing, physics, drops): their use shows in [trace]. *)
Record Level := mkLevel {
  tmx_maps : gmap string Tilemap;
  current_map : MapId;
  game_map : option GameMap;
  tree_sprites : list Tree;
  interaction_sprites : list Sprite;
  player_exit_warps : list Sprite;
  soil_layer : Soil;
  cutscene_animation : Scene;
  player : Character;
  raining : bool;
  map_transition : Transition;
  day_transition : Transition;
  current_day : Z;
  sky : Sky;
  show_hitbox_active : bool;
  trace : list Event
}.

Definition set_current_map (v : MapId) (l : Level) : Level :=
  mkLevel (tmx_maps l) v (game_map l) (tree_sprites l) (interaction_sprites l)
    (player_exit_warps l) (soil_layer l) (cutscene_animation l) (player l)
    (raining l) (map_transition l) (day_transition l) (current_day l) (sky l)
    (show_hitbox_active l) (trace l).

Definition set_game_map (v : option GameMap) (l : Level) : Level :=
  mkLevel (tmx_maps l) (current_map l) v (tree_sprites l) (interaction_sprites l)
    (player_exit_warps l) (soil_layer l) (cutscene_animation l) (player l)
    (raining l) (map_transition l) (day_transition l) (current_day l) (sky l)
    (show_hitbox_active l) (trace l).

Definition set_tree_sprites (v : list Tree) (l : Level) : Level :=
  mkLevel (tmx_maps l) (current_map l) (game_map l) v (interaction_sprites l)
    (player_exit_warps l) (soil_layer l) (cutscene_animation l) (player l)
    (raining l) (map_transition l) (day_transition l) (current_day l) (sky l)
    (show_hitbox_active l) (trace l).

Definition set_interaction_sprites (v : list Sprite) (l : Level) : Level :=
  mkLevel (tmx_maps l) (current_map l) (game_map l) (tree_sprites l) v
    (player_exit_warps l) (soil_layer l) (cutscene_animation l) (player l)
    (raining l) (map_transition l) (day_transition l) (current_day l) (sky l)
    (show_hitbox_active l) (trace l).

Definition set_player_exit_warps (v : list Sprite) (l : Level) : Level :=
  mkLevel (tmx_maps l) (current_map l) (game_map l) (tree_sprites l)
    (interaction_sprites l) v (soil_layer l) (cutscene_animation l) (player l)
    (raining l) (map_transition l) (day_transition l) (current_day l) (sky l)
    (show_hitbox_active l) (trace l).

Definition set_soil_layer (v : Soil) (l : Level) : Level :=
  mkLevel (tmx_maps l) (current_map l) (game_map l) (tree_sprites l)
    (interaction_sprites l) (player_exit_warps l) v (cutscene_animation l)
    (player l) (raining l) (map_transition l) (day_transition l)
    (current_day l) (sky l) (show_hitbox_active l) (trace l).

Definition set_cutscene_animation (v : Scene) (l : Level) : Level :=
  mkLevel (tmx_maps l) (current_map l) (game_map l) (tree_sprites l)
    (interaction_sprites l) (player_exit_warps l) (soil_layer l) v
    (player l) (raining l) (map_transition l) (day_transition l)
    (current_day l) (sky l) (show_hitbox_active l) (trace l).

Definition set_player (v : Character) (l : Level) : Level :=
  mkLevel (tmx_maps l) (current_map l) (game_map l) (tree_sprites l)
    (interaction_sprites l) (player_exit_warps l) (soil_layer l)
    (cutscene_animation l) v (raining l) (map_transition l) (day_transition l)
    (current_day l) (sky l) (show_hitbox_active l) (trace l).

Definition set_raining (v : bool) (l : Level) : Level :=
  mkLevel (tmx_maps l) (current_map l) (game_map l) (tree_sprites l)
    (interaction_sprites l) (player_exit_warps l) (soil_layer l)
    (cutscene_animation l) (player l) v (map_transition l) (day_transition l)
    (current_day l) (sky l) (show_hitbox_active l) (trace l).

Definition set_map_transition (v : Transition) (l : Level) : Level :=
  mkLevel (tmx_maps l) (current_map l) (game_map l) (tree_sprites l)
    (interaction_sprites l) (player_exit_warps l) (soil_layer l)
    (cutscene_animation l) (player l) (raining l) v (day_transition l)
    (current_day l) (sky l) (show_hitbox_active l) (trace l).

Definition set_day_transition (v : Transition) (l : Level) : Level :=
  mkLevel (tmx_maps l) (current_map l) (game_map l) (tree_sprites l)
    (interaction_sprites l) (player_exit_warps l) (soil_layer l)
    (cutscene_animation l) (player l) (raining l) (map_transition l) v
    (current_day l) (sky l) (show_hitbox_active l) (trace l).

Definition set_current_day (v : Z) (l : Level) : Level :=
  mkLevel (tmx_maps l) (current_map l) (game_map l) (tree_sprites l)
    (interaction_sprites l) (player_exit_warps l) (soil_layer l)
    (cutscene_animation l) (player l) (raining l) (map_transition l)
    (day_transition l) v (sky l) (show_hitbox_active l) (trace l).

Definition set_sky (v : Sky) (l : Level) : Level :=
  mkLevel (tmx_maps l) (current_map l) (game_map l) (tree_sprites l)
    (interaction_sprites l) (player_exit_warps l) (soil_layer l)
    (cutscene_animation l) (player l) (raining l) (map_transition l)
    (day_transition l) (current_day l) v (show_hitbox_active l) (trace l).

Definition set_show_hitbox_active (v : bool) (l : Level) : Level :=
  mkLevel (tmx_maps l) (current_map l) (game_map l) (tree_sprites l)
    (interaction_sprites l) (player_exit_warps l) (soil_layer l)
    (cutscene_animation l) (player l) (raining l) (map_transition l)
    (day_transition l) (current_day l) (sky l) v (trace l).

(** The trace grows at its end: call order is list order. *)
Definition emit (e : Event) (l : Level) : Level :=
  mkLevel (tmx_maps l) (current_map l) (game_map l) (tree_sprites l)
    (interaction_sprites l) (player_exit_warps l) (soil_layer l)
    (cutscene_animation l) (player l) (raining l) (map_transition l)
    (day_transition l) (current_day l) (sky l) (show_hitbox_active l)
    (trace l ++ [e]).

(** *** Methods that may raise *)

Inductive Res (A : Type) :=
  | Ok (a : A) (l : Level)
  | Raise (e : Exn) (l : Level).
Global Arguments Ok {A} a l.
Global Arguments Raise {A} e l.

Definition M (A : Type) : Type := Level → Res A.

Definition ret {A} (a : A) : M A := λ l, Ok a l.

Definition bind {A B} (m : M A) (k : A → M B) : M B :=
  λ l, match m l with
       | Ok a l' => k a l'
       | Raise e l' => Raise e l'
       end.

Definition raise {A} (e : Exn) : M A := λ l, Raise e l.
Definition gets {A} (f : Level → A) : M A := λ l, Ok (f l) l.
Definition modify (f : Level → Level) : M unit := λ l, Ok tt (f l).

Notation "x <- m ;; k" := (bind m (λ x, k))
  (at level 100, m at next level, right associativity).
Notation "m ;;; k" := (bind m (λ _, k))
  (at level 100, right associativity).

(** The state a computation ends in, whether it returned or raised. *)
Definition final {A} (r : Res A) : Level :=
  match r with Ok _ l => l | Raise _ l => l end.

Definition returned {A} (r : Res A) : bool :=
  match r with Ok _ _ => true | Raise _ _ => false end.

(** [self.tmx_maps.get(k)] and [self.tmx_maps[k]]. *)
Definition registry_get (reg : gmap string Tilemap) (k : MapId) : option Tilemap :=
  match k with
  | None => None
  | Some s => reg !! s
  end.

Definition registry_item (k : MapId) : M Tilemap :=
  λ l, match registry_get (tmx_maps l) k with
       | Some tm => Ok tm l
       | None => Raise (KeyError k) l
       end.

(** *** [load_map] *)

(** [GameMap(tilemap=..., ...)]: fills the sprite groups it is handed and
    keeps the size, the entry warps and the default spawnpoint. *)
Definition new_GameMap (tm : Tilemap) (l : Level) : Level :=
  set_game_map (Some (mkGameMap (tm_size tm) (tm_entry_warps tm) (tm_spawnpoint tm)))
    (set_cutscene_animation (scene_setup tm (cutscene_animation l))
      (set_player_exit_warps (tm_exit_warps tm)
        (set_interaction_sprites (tm_interactions tm)
          (set_tree_sprites (tm_trees tm) l)))).

(** Lines 203-213: the entry warp for the origin.  A position is a pair, so
    [not player_spawn] holds exactly when [get] found nothing. *)
Definition entry_warp_spawn (gm : GameMap) (game_map_id from_map : MapId)
  : M (option Pos) :=
  if truthy from_map then
    match dict_get_id (player_entry_warps gm) from_map with
    | Some p => ret (Some p)
    | None =>
        cur <- gets current_map ;;
        modify (emit (EvWarn (NoEntryWarp game_map_id cur))) ;;;
        ret None
    end
  else ret None.

(** Lines 215-225: the default spawnpoint, else the first entry warp. *)
Definition default_spawn (gm : GameMap) (game_map_id : MapId)
    (player_spawn : option Pos) : M Pos :=
  match player_spawn with
  | Some p => ret p
  | None =>
      match player_spawnpoint gm with
      | Some p => ret p
      | None =>
          modify (emit (EvWarn (NoDefaultSpawnpoint game_map_id))) ;;;
          match dict_values (player_entry_warps gm) with
          | p :: _ => ret p
          | [] => raise StopIteration
          end
      end
  end.

Definition resolve_spawn (gm : GameMap) (game_map_id from_map : MapId) : M Pos :=
  player_spawn <- entry_warp_spawn gm game_map_id from_map ;;
  default_spawn gm game_map_id player_spawn.

Definition load_map (game_map_id from_map : MapId) : M unit :=
  modify (set_interaction_sprites []) ;;;
  modify (set_tree_sprites []) ;;;
  modify (set_player_exit_warps []) ;;;
  modify (λ l, set_soil_layer (soil_reset (soil_layer l)) l) ;;;
  modify (emit EvQuakerReset) ;;;
  tm <- registry_item game_map_id ;;
  modify (new_GameMap tm) ;;;
  let gm := mkGameMap (tm_size tm) (tm_entry_warps tm) (tm_spawnpoint tm) in
  modify (emit (EvCameraChangeSize (size gm))) ;;;
  player_spawn <- resolve_spawn gm game_map_id from_map ;;
  modify (λ l, set_player (teleport player_spawn (player l)) l) ;;;
  modify (emit (EvRainSetFloorSize (size gm))) ;;;
  modify (set_current_map game_map_id) ;;;
  modify (λ l, set_cutscene_animation (scene_start (cutscene_animation l)) l).

(** *** [switch_to_map] *)

Definition switch_to_map (map_name : MapId) : M unit :=
  reg <- gets tmx_maps ;;
  cur <- gets current_map ;;
  match registry_get reg map_name with
  | Some _ => load_map map_name cur
  | None =>
      modify (emit (EvWarn (MapNotFound map_name))) ;;;
      load_map cur map_name
  end.

(** *** Tool use *)

Definition _play_playeronly_sound (sound : string) (entity : Character)
    (l : Level) : Level :=
  if is_player entity then emit (EvSound sound) l else l.

(** The sprites of a group are objects: a member is referred to by its place
    in the group, and [tree.hit] changes the member in place. *)
Definition spritecollide_refs {A : Type} (collided : A → bool) (group : list A)
  : list nat :=
  filter (λ i, from_option collided false (group !! i) = true)
         (seq 0 (length group)).

Definition axe_collided (spr : Character) (tree_spr : Tree) : bool :=
  colliderect (axe_hitbox spr) (tree_hitbox_rect tree_spr).

(** Body of the loop of the [AXE] case, for the tree at place [i]. *)
Definition chop (entity : Character) (l : Level) (i : nat) : Level :=
  _play_playeronly_sound "axe" entity
    (set_tree_sprites (alter hit i (tree_sprites l)) l).

Definition apply_tool (tool : FarmingTool) (p : Pos) (entity : Character)
    (l : Level) : Level :=
  match tool with
  | AXE =>
      foldl (chop entity) l
        (spritecollide_refs (axe_collided entity) (tree_sprites l))
  | HOE =>
      let '(soil, ok) := soil_hoe p (soil_layer l) in
      let l1 := set_soil_layer soil l in
      if ok then _play_playeronly_sound "hoe" entity l1 else l1
  | WATERING_CAN =>
      let l1 := set_soil_layer (soil_water p (soil_layer l)) l in
      _play_playeronly_sound "water" entity l1
  | OTHER _ =>
      let '(soil, ok) := soil_plant p tool (soil_layer l) in
      let l1 := set_soil_layer soil l in
      if ok then _play_playeronly_sound "plant" entity l1
      else _play_playeronly_sound "cant_plant" entity l1
  end.

(** *** Transitions of the level *)

Definition start_transition (l : Level) : Level :=
  set_player (set_direction (0, 0) (set_blocked true (player l))) l.

Definition finish_transition (l : Level) : Level :=
  set_player (set_blocked false (player l)) l.

Definition start_day_transition (l : Level) : Level :=
  start_transition (set_day_transition (activate (day_transition l)) l).

Definition start_map_transition (l : Level) : Level :=
  start_transition (set_map_transition (activate (map_transition l)) l).

(** *** [interact] *)

Definition interact (l : Level) : Level :=
  let collided_interactions :=
    spritecollide (λ s, colliderect (char_rect (player l)) (rect s))
                  (interaction_sprites l) in
  match collided_interactions with
  | [] => l
  | first :: _ =>
      let l1 := if String.eqb (name first) "Bed"
                then start_day_transition l else l in
      if String.eqb (name first) "Trader"
      then emit (EvSwitchScreen SHOP) l1 else l1
  end.

(** *** [handle_event] *)

Definition handle_event (event : PgEvent) (l : Level) : bool * Level :=
  let hitbox_key := DEBUG_SHOW_HITBOXES (controls (player l)) in
  let dialog_key := SHOW_DIALOG (controls (player l)) in
  let advance_dialog_key := ADVANCE_DIALOG (controls (player l)) in
  match event with
  | KEYDOWN key =>
      if key =? K_ESCAPE then (true, emit (EvSwitchScreen PAUSE) l)
      else if key =? hitbox_key
      then (true, set_show_hitbox_active (negb (show_hitbox_active l)) l)
      else if key =? dialog_key
      then (true, emit (EvPost (DIALOG_SHOW "test")) l)
      else if key =? advance_dialog_key
      then (true, emit (EvPost DIALOG_ADVANCE) l)
      else (false, l)
  | START_QUAKE duration => (false, emit (EvQuakerStart duration) l)
  | OTHER_EVENT _ => (false, l)
  end.

(** *** [reset], the day-transition callback *)

(** [randint(0, 10)] draws one of these, each equally likely. *)
Definition randint_0_10 : list Z := [0; 1; 2; 3; 4; 5; 6; 7; 8; 9; 10].

Definition with_fruit (new : list Fruit) (t : Tree) : Tree :=
  mkTree (tree_hitbox_rect t) (alive t) (fruit_sprites t ++ new) (hits t).

(** Body of [for tree in self.tree_sprites]. *)
Definition regrow (tree : Tree) : Tree :=
  let t := kill_fruit tree in
  if alive t then with_fruit (create_fruit t) t else t.

(** [r] is the value [randint(0, 10)] returns. *)
Definition reset (r : Z) (l : Level) : Level :=
  let l1 := set_current_day (current_day l + 1) l in
  let l2 := set_soil_layer (soil_update (soil_layer l1)) l1 in
  let l3 := set_raining (r >? 7) l2 in
  let l4 := set_soil_layer (soil_set_raining (raining l3) (soil_layer l3)) l3 in
  let l5 := set_tree_sprites (map regrow (tree_sprites l4)) l4 in
  let l6 := set_sky (mkSky [255; 255; 255] (sky_time (sky l5))) l5 in
  set_sky (mkSky (start_color (sky l6)) (6, 0)) l6.

(** *** [check_map_exit] *)

Fixpoint scan_exit_warps (warps : list Sprite) (l : Level) : Level :=
  match warps with
  | [] => l
  | warp_hitbox :: rest =>
      if colliderect (hitbox_rect (player l)) (rect warp_hitbox)
      then start_map_transition
             (set_map_transition
                (set_reset (CbSwitchToMap (Some (name warp_hitbox)))
                           (map_transition l)) l)
      else scan_exit_warps rest l
  end.

Definition check_map_exit (l : Level) : Level :=
  if negb (active (map_transition l))
  then scan_exit_warps (player_exit_warps l) l
  else l.

(** *** [update] *)

Definition run_callback (r : Z) (c : Callback) : M unit :=
  match c with
  | CbSwitchToCurrentMap => cur <- gets current_map ;; switch_to_map cur
  | CbSwitchToMap map_name => switch_to_map map_name
  | CbReset => modify (reset r)
  | CbFinishTransition => modify finish_transition
  end.

Definition transition_of (w : Which) (l : Level) : Transition :=
  match w with Day => day_transition l | Map => map_transition l end.

Definition on_transition (w : Which) (f : Transition → Transition)
    (l : Level) : Level :=
  match w with
  | Day => set_day_transition (f (day_transition l)) l
  | Map => set_map_transition (f (map_transition l)) l
  end.

(** Modelled from the spec: [Transition.update], for the transition [w] of
    the level; [ms] is the time since the previous update and [r] the random
    draw should [reset] fire.  Elapsed time advances while Active; crossing
    the midpoint fires [reset] once; reaching the duration returns the
    transition to Idle and fires [finish_reset]. *)
Definition advance (w : Which) (ms r : Z) : M unit :=
  t <- gets (transition_of w) ;;
  if active t then
    let e := elapsed t + ms in
    modify (on_transition w (set_elapsed e)) ;;;
    (if negb (peaked t) && (dur t <=? 2 * e)
     then modify (on_transition w set_peaked) ;;; run_callback r (reset_cb t)
     else ret tt) ;;;
    (if dur t <=? e
     then modify (on_transition w set_idle) ;;; run_callback r (finish_reset t)
     else ret tt)
  else ret tt.

(** [self.day_transition.update()] and [self.map_transition.update()] as
    [update] calls them: the call enters the trace, then the transition
    advances. *)
Definition transition_update (w : Which) (ms r : Z) : M unit :=
  modify (emit (EvTransitionUpdate w)) ;;;
  advance w ms r.

Definition update_rain (l : Level) : Level :=
  if raining l then emit EvRainUpdate l else l.

Definition update_cutscene (dt : Z) (l : Level) : Level :=
  if scene_active (cutscene_animation l)
  then set_cutscene_animation (scene_update dt (cutscene_animation l)) l
  else l.

Definition camera_target (l : Level) : Target :=
  if scene_active (cutscene_animation l) then AtCutscene else AtPlayer.

(** The [if move_things:] block.  What the sprites do inside their own update
    belongs to them; the trace keeps which update ran and, for the unblocked
    one, the value of [player.blocked] it ran under. *)
Definition move (dt : Z) (l : Level) : Level :=
  let l1 := if scene_active (cutscene_animation l)
            then emit EvSpritesUpdateBlocked l
            else emit (EvSpritesUpdate (blocked (player l))) l in
  let l2 := emit EvDropsUpdate l1 in
  let l3 := update_cutscene dt l2 in
  let l4 := emit EvQuakerUpdate l3 in
  let l5 := emit (EvCameraUpdate (camera_target l4)) l4 in
  emit (EvZoomUpdate (camera_target l5)) l5.

Definition draw (move_things : bool) (l : Level) : Level :=
  emit (EvDraw move_things) l.

Definition draw_hitboxes (l : Level) : Level :=
  if show_hitbox_active l then emit EvDrawHitboxes l else l.

(** One frame.  [ms] and [r] are what the clock and [randint] give the
    transitions during this frame. *)
Definition update (dt : Z) (move_things : bool) (ms r : Z) : M unit :=
  modify check_map_exit ;;;
  modify update_rain ;;;
  transition_update Day ms r ;;;
  transition_update Map ms r ;;;
  (if move_things then modify (move dt) else ret tt) ;;;
  modify (draw move_things) ;;;
  modify draw_hitboxes.

(** The [GameMap] built from a tile map. *)
Definition descriptor (tm : Tilemap) : GameMap :=
  mkGameMap (tm_size tm) (tm_entry_warps tm) (tm_spawnpoint tm).

(** The Spawn Resolver in the spec's words: the entry warp registered for a
    given origin; else the default spawnpoint; else the first entry warp;
    absent only when the map has neither. *)
Definition spawn_by_priority (tm : Tilemap) (origin : MapId) : option Pos :=
  match (if truthy origin then dict_get_id (tm_entry_warps tm) origin else None) with
  | Some p => Some p
  | None =>
      match tm_spawnpoint tm with
      | Some p => Some p
      | None => head (dict_values (tm_entry_warps tm))
      end
  end.

(** *** Reading a trace *)

(** What a method added to the trace. *)
Definition emitted (before after : Level) : list Event :=
  drop (length (trace before)) (trace after).

Definition warnings (tr : list Event) : list Warning :=
  omap (λ e, match e with EvWarn w => Some w | _ => None end) tr.

Definition sounds (tr : list Event) : list string :=
  omap (λ e, match e with EvSound s => Some s | _ => None end) tr.

(** The level as [load_map] has it when it starts to look for the spawn. *)
Definition prepared (tm : Tilemap) (l : Level) : Level :=
  emit (EvCameraChangeSize (tm_size tm))
    (new_GameMap tm
      (emit EvQuakerReset
        (set_soil_layer (soil_reset (soil_layer l))
          (set_player_exit_warps []
            (set_tree_sprites [] (set_interaction_sprites [] l)))))).

(** The rest of [load_map] once the spawn [p] is known. *)
Definition arrive (game_map_id : MapId) (tm : Tilemap) (p : Pos) (l : Level)
  : Level :=
  let l1 := set_player (teleport p (player l)) l in
  let l2 := emit (EvRainSetFloorSize (tm_size tm)) l1 in
  let l3 := set_current_map game_map_id l2 in
  set_cutscene_animation (scene_start (cutscene_animation l3)) l3.

(** The four ways the search for a spawn can end. *)
Inductive Resolution (l : Level) (game_map_id from_map : MapId)
    (tm : Tilemap) : Res Pos → Prop :=
  | FromEntryWarp p :
      truthy from_map = true →
      dict_get_id (tm_entry_warps tm) from_map = Some p →
      Resolution l game_map_id from_map tm (Ok p l)
  | FromSpawnpoint p l' ws :
      truthy from_map = false ∨ dict_get_id (tm_entry_warps tm) from_map = None →
      tm_spawnpoint tm = Some p →
      ws = (if truthy from_map
            then [EvWarn (NoEntryWarp game_map_id (current_map l))] else []) →
      trace l' = trace l ++ ws →
      player l' = player l → current_map l' = current_map l →
      Resolution l game_map_id from_map tm (Ok p l')
  | FromFirstWarp k p rest l' ws :
      truthy from_map = false ∨ dict_get_id (tm_entry_warps tm) from_map = None →
      tm_spawnpoint tm = None →
      tm_entry_warps tm = (k, p) :: rest →
      ws = (if truthy from_map
            then [EvWarn (NoEntryWarp game_map_id (current_map l))] else [])
           ++ [EvWarn (NoDefaultSpawnpoint game_map_id)] →
      trace l' = trace l ++ ws →
      player l' = player l → current_map l' = current_map l →
      Resolution l game_map_id from_map tm (Ok p l')
  | NoSpawn l' ws :
      tm_spawnpoint tm = None →
      tm_entry_warps tm = [] →
      ws = (if truthy from_map
            then [EvWarn (NoEntryWarp game_map_id (current_map l))] else [])
           ++ [EvWarn (NoDefaultSpawnpoint game_map_id)] →
      trace l' = trace l ++ ws →
      player l' = player l → current_map l' = current_map l →
      Resolution l game_map_id from_map tm (Raise StopIteration l').

(** The test of [check_map_exit] on one exit warp. *)
Definition overlaps_player (l : Level) (warp_hitbox : Sprite) : bool :=
  colliderect (hitbox_rect (player l)) (rect warp_hitbox).

(** Trace entries that move the sprites. *)
Definition is_movement (e : Event) : bool :=
  match e with
  | EvSpritesUpdate _ | EvSpritesUpdateBlocked => true
  | _ => false
  end.

(** Whether an update that advances [t] by [ms] brings it to its end. *)
Definition finishes (ms : Z) (t : Transition) : bool :=
  active t && (dur t <=? elapsed t + ms).

(** [l'] comes after [l] by steps that move no sprite ([quiet_trace]) and
    that leave the player's blocked flag as it was ([quiet_step]). *)
Definition quiet_trace (l l' : Level) : Prop :=
  ∃ evs, trace l' = trace l ++ evs ∧ Forall (λ e, is_movement e = false) evs.

Definition quiet_step (l l' : Level) : Prop :=
  quiet_trace l l' ∧ blocked (player l') = blocked (player l).

(** A computation all of whose runs, returning or raising, stay within [R]. *)
Definition preserves {A} (R : Level → Level → Prop) (m : M A) : Prop :=
  ∀ l, R l (final (m l)).

(** *** Further readings of the state *)

(** The level with another trace. *)
Definition with_trace (tr : list Event) (l : Level) : Level :=
  mkLevel (tmx_maps l) (current_map l) (game_map l) (tree_sprites l)
    (interaction_sprites l) (player_exit_warps l) (soil_layer l)
    (cutscene_animation l) (player l) (raining l) (map_transition l)
    (day_transition l) (current_day l) (sky l) (show_hitbox_active l) tr.

(** [l'] differs from [l] in its trace at most. *)
Definition only_trace (l l' : Level) : Prop := ∃ tr, l' = with_trace tr l.

(** What no map load touches: the registry, the player's flags, direction
    and controls, both transitions, the day counter, the weather, the sky and
    the hitbox switch. *)
Definition same_session (l l' : Level) : Prop :=
  tmx_maps l' = tmx_maps l
  ∧ blocked (player l') = blocked (player l)
  ∧ direction (player l') = direction (player l)
  ∧ controls (player l') = controls (player l)
  ∧ is_player (player l') = is_player (player l)
  ∧ map_transition l' = map_transition l
  ∧ day_transition l' = day_transition l
  ∧ current_day l' = current_day l
  ∧ raining l' = raining l
  ∧ sky l' = sky l
  ∧ show_hitbox_active l' = show_hitbox_active l.



(** Trace entries of a frame that has got as far as moving or drawing. *)
Definition is_frame_output (e : Event) : bool :=
  match e with
  | EvSpritesUpdate _ | EvSpritesUpdateBlocked | EvDropsUpdate
  | EvQuakerUpdate | EvCameraUpdate _ | EvZoomUpdate _
  | EvDraw _ | EvDrawHitboxes => true
  | _ => false
  end.

(** [l'] comes after [l] by steps that neither move nor draw. *)
Definition undrawn (l l' : Level) : Prop :=
  ∃ evs, trace l' = trace l ++ evs
         ∧ Forall (λ e, is_frame_output e = false) evs.

(** [reset] fired once for each draw of [rs], in order. *)
Definition resets (rs : list Z) (l : Level) : Level :=
  foldl (λ l r, reset r l) l rs.

(** [l'] differs from [l] in its trees, soil and trace at most. *)
Definition same_but_world (l l' : Level) : Prop :=
  tmx_maps l' = tmx_maps l
  ∧ current_map l' = current_map l
  ∧ game_map l' = game_map l
  ∧ interaction_sprites l' = interaction_sprites l
  ∧ player_exit_warps l' = player_exit_warps l
  ∧ cutscene_animation l' = cutscene_animation l
  ∧ player l' = player l
  ∧ raining l' = raining l
  ∧ map_transition l' = map_transition l
  ∧ day_transition l' = day_transition l
  ∧ current_day l' = current_day l
  ∧ sky l' = sky l
  ∧ show_hitbox_active l' = show_hitbox_active l.


End LevelModel.

(** ** A concrete world to run the level in *)

(** A small soil grid: tiles are hoed, then watered or planted. *)
Record GridSoil := mkGridSoil {
  grid_raining : bool;
  hoed : list Pos;
  watered : list Pos;
  planted : list Pos
}.

Definition pos_eqb (p q : Pos) : bool := (fst p =? fst q) && (snd p =? snd q).

Definition has (p : Pos) (ps : list Pos) : bool := existsb (pos_eqb p) ps.

Definition grid_hoe (p : Pos) (s : GridSoil) : GridSoil * bool :=
  if has p (hoed s) then (s, false)
  else (mkGridSoil (grid_raining s) (p :: hoed s) (watered s) (planted s), true).

Definition grid_water (p : Pos) (s : GridSoil) : GridSoil :=
  if has p (hoed s)
  then mkGridSoil (grid_raining s) (hoed s) (p :: watered s) (planted s)
  else s.

Definition grid_plant (p : Pos) (seed : FarmingTool) (s : GridSoil)
  : GridSoil * bool :=
  if has p (hoed s) && negb (has p (planted s))
  then (mkGridSoil (grid_raining s) (hoed s) (watered s) (p :: planted s), true)
  else (s, false).

Definition grid_update (s : GridSoil) : GridSoil :=
  mkGridSoil (grid_raining s) (hoed s)
    (if grid_raining s then hoed s else []) (planted s).

(** The cutscene track as the number of steps it still has to play. *)
#[global] Instance grid_world : Collaborators GridSoil nat := {|
  soil_reset s := mkGridSoil (grid_raining s) [] [] [];
  soil_update := grid_update;
  soil_set_raining b s := mkGridSoil b (hoed s) (watered s) (planted s);
  soil_hoe := grid_hoe;
  soil_water := grid_water;
  soil_plant := grid_plant;
  scene_setup _ s := s;
  scene_start s := s;
  scene_active s := (0 <? s)%nat;
  scene_update _ s := Nat.pred s;
  create_fruit t := [(rx (tree_hitbox_rect t), ry (tree_hitbox_rect t))]
|}.

Definition farm : Tilemap := {|
  tm_size := (640, 480);
  tm_entry_warps := [("forest", (600, 200)); ("town", (20, 200))];
  tm_spawnpoint := Some (320, 240);
  tm_exit_warps := [mkSprite "forest" (mkRect 630 0 10 480);
                    mkSprite "harbour" (mkRect 0 0 10 480)];
  tm_trees := [mkTree (mkRect 100 100 20 20) true [(101, 101)] 0;
               mkTree (mkRect 200 100 20 20) true [] 0;
               mkTree (mkRect 110 110 20 20) false [(111, 111)] 0];
  tm_interactions := [mkSprite "Bed" (mkRect 300 220 40 40);
                      mkSprite "Trader" (mkRect 320 230 40 40)]
|}.

Definition forest : Tilemap := {|
  tm_size := (800, 800);
  tm_entry_warps := [("farm", (10, 400)); ("town", (790, 400))];
  tm_spawnpoint := None;
  tm_exit_warps := [mkSprite "farm" (mkRect 0 0 5 800)];
  tm_trees := [];
  tm_interactions := []
|}.

Definition cellar : Tilemap := {|
  tm_size := (64, 64);
  tm_entry_warps := [];
  tm_spawnpoint := None;
  tm_exit_warps := [];
  tm_trees := [];
  tm_interactions := []
|}.

Definition registry : gmap string Tilemap :=
  <["farm" := farm]> (<["forest" := forest]> (<["cellar" := cellar]> ∅)).

Definition rabbit : Character := {|
  is_player := true;
  pos := (0, 0);
  char_rect := mkRect (-16) (-16) 32 32;
  hitbox_rect := mkRect (-8) 0 16 16;
  axe_hitbox := mkRect 16 (-8) 16 16;
  blocked := false;
  direction := (1, 0);
  controls := mkControls 104 116 32
|}.

Definition villager : Character := {|
  is_player := false;
  pos := (105, 105);
  char_rect := mkRect 89 89 32 32;
  hitbox_rect := mkRect 97 105 16 16;
  axe_hitbox := mkRect 105 105 16 16;
  blocked := false;
  direction := (0, 0);
  controls := mkControls 0 0 0
|}.

(** The attributes as [__init__] leaves them before it calls [load_map]
    (the two transitions are created right after that call). *)
Definition blank : @Level GridSoil nat := {|
  tmx_maps := registry;
  current_map := None;
  game_map := None;
  tree_sprites := [];
  interaction_sprites := [];
  player_exit_warps := [];
  soil_layer := mkGridSoil false [] [] [];
  cutscene_animation := 0%nat;
  player := rabbit;
  raining := false;
  map_transition := new_Transition CbSwitchToCurrentMap CbFinishTransition 2400;
  day_transition := new_Transition CbReset CbFinishTransition 3200;
  current_day := 0;
  sky := mkSky [255; 255; 255] (6, 0);
  show_hitbox_active := false;
  trace := []
|}.

(** The level on the farm, as [load_map(GAME_MAP)] leaves it. *)
Definition on_farm : @Level GridSoil nat :=
  final (load_map (Some "farm") None blank).

(** The level with the player standing in the farm's exit warp to the forest,
    walking east. *)
Definition at_forest_exit : @Level GridSoil nat :=
  set_player (teleport (625, 100) (player on_farm)) on_farm.

(** The rabbit next to the first and third tree of the farm, axe towards
    them. *)
Definition woodcutter : Character := teleport (95, 110) rabbit.

(** The farm half way through a map transition that will switch to
    [target] when its midpoint is crossed. *)
Definition leaving_for (target : string) : @Level GridSoil nat :=
  set_map_transition
    (mkTransition true 1190 2400 false (CbSwitchToMap (Some target))
                  CbFinishTransition)
    (set_player (set_blocked true (player on_farm)) on_farm).

(** ** Four sentences of the specification, read literally *)

(** "On the first player/exit-warp overlap exactly three things happen": the
    reset callback is replaced, the blocked flag is set, the transition is
    activated, and the level is otherwise as before. *)
Definition spec_exit_check_three_effects : Prop :=
  ∀ Soil Scene (W : Collaborators Soil Scene) (l : @Level Soil Scene)
    warp_hitbox others,
    active (map_transition l) = false →
    spritecollide (overlaps_player l) (player_exit_warps l)
      = warp_hitbox :: others →
    check_map_exit l
    = set_player (set_blocked true (player l))
        (set_map_transition
           (activate (set_reset (CbSwitchToMap (Some (name warp_hitbox)))
                                (map_transition l))) l).

(** "A map-transition activated by the exit-warp check of that tick blocks
    player movement starting only the very next tick": a player who was free
    before the frame is not moved under a set blocked flag in the frame whose
    exit check activates the transition. *)
Definition spec_blocked_from_next_tick : Prop :=
  ∀ Soil Scene (W : Collaborators Soil Scene) (l l' : @Level Soil Scene)
    dt ms r,
    blocked (player l) = false →
    active (map_transition l) = false →
    spritecollide (overlaps_player l) (player_exit_warps l) ≠ [] →
    update dt true ms r l = Ok tt l' →
    EvSpritesUpdate true ∉ emitted l l'.

(** "The water sound plays unconditionally". *)
Definition spec_water_sound_unconditional : Prop :=
  ∀ Soil Scene (W : Collaborators Soil Scene) (l : @Level Soil Scene)
    p entity,
    sounds (emitted l (apply_tool WATERING_CAN p entity l)) = ["water"].

(** "Exactly one [warning] when neither a matching warp nor a default
    spawnpoint exists and an arbitrary registered entry warp is used". *)
Definition spec_one_warning_per_fallback : Prop :=
  ∀ Soil Scene (W : Collaborators Soil Scene) (l : @Level Soil Scene)
    game_map_id from_map tm k p rest,
    registry_get (tmx_maps l) game_map_id = Some tm →
    dict_get_id (tm_entry_warps tm) from_map = None →
    tm_spawnpoint tm = None →
    tm_entry_warps tm = (k, p) :: rest →
    length (warnings (emitted l (final (load_map game_map_id from_map l))))
    = 1%nat.

(** * Properties *)

Section LevelTheorems.

Context {Soil Scene : Type} `{!Collaborators Soil Scene}.

Local Abbreviation M_ := (@M Soil Scene).
Local Abbreviation quietly := (preserves (@quiet_step Soil Scene)).
Local Abbreviation silently := (preserves (@quiet_trace Soil Scene)).

Implicit Types (l : @Level Soil Scene) (tm : Tilemap).

Lemma emitted_emit l e l' :
  trace l' = trace l ++ e → emitted l l' = e.
Proof.
  intros E. unfold emitted. rewrite E. by rewrite drop_app_length.
Qed.

Lemma trace_emit e l : trace (emit e l) = trace l ++ [e].
Proof. reflexivity. Qed.

Lemma teleport_pos p c : pos (teleport p c) = p.
Proof. reflexivity. Qed.

(** ** Spawn resolution *)

Lemma load_map_registered l game_map_id from_map tm :
  registry_get (tmx_maps l) game_map_id = Some tm →
  load_map game_map_id from_map l =
    match resolve_spawn (descriptor tm) game_map_id from_map (prepared tm l) with
    | Ok p l' => Ok tt (arrive game_map_id tm p l')
    | Raise e l' => Raise e l'
    end.
Proof.
  intros Hreg. unfold load_map, bind, modify, registry_item. simpl.
  rewrite Hreg. simpl. unfold descriptor, prepared.
  destruct (resolve_spawn _ _ _ _); reflexivity.
Qed.

Lemma load_map_unregistered l game_map_id from_map :
  registry_get (tmx_maps l) game_map_id = None →
  ∃ l', load_map game_map_id from_map l = Raise (KeyError game_map_id) l'
        ∧ current_map l' = current_map l ∧ player l' = player l.
Proof.
  intros Hreg. unfold load_map, bind, modify, registry_item. simpl.
  rewrite Hreg. eauto.
Qed.

Lemma dict_get_id_nil {V} (k : MapId) : dict_get_id (@nil (string * V)) k = None.
Proof. by destruct k. Qed.

Lemma dict_values_head tm :
  tm_entry_warps tm = [] ∨ ∃ k p rest, tm_entry_warps tm = (k, p) :: rest.
Proof. destruct (tm_entry_warps tm) as [|[k p] rest]; eauto. Qed.

Lemma resolve_spawn_cases l game_map_id from_map tm :
  Resolution l game_map_id from_map tm
    (resolve_spawn (descriptor tm) game_map_id from_map l).
Proof.
  unfold resolve_spawn, entry_warp_spawn, default_spawn, bind, modify, gets, ret,
    raise, dict_values. simpl.
  destruct (truthy from_map) eqn:Ht.
  - destruct (dict_get_id (tm_entry_warps tm) from_map) as [p|] eqn:Hw; simpl.
    + by apply FromEntryWarp.
    + destruct (tm_spawnpoint tm) as [p|] eqn:Hs; simpl.
      * eapply FromSpawnpoint; eauto. by rewrite Ht.
      * destruct (dict_values_head tm) as [He|(k & p & rest & He)];
          rewrite He; simpl.
        -- eapply NoSpawn; eauto. rewrite Ht. simpl.
           by rewrite <- app_assoc.
        -- eapply FromFirstWarp; eauto. rewrite Ht. simpl.
           by rewrite <- app_assoc.
  - destruct (tm_spawnpoint tm) as [p|] eqn:Hs; simpl.
    + eapply FromSpawnpoint; eauto. rewrite Ht. by rewrite app_nil_r.
    + destruct (dict_values_head tm) as [He|(k & p & rest & He)];
        rewrite He; simpl.
      * eapply NoSpawn; eauto. by rewrite Ht.
      * eapply FromFirstWarp; eauto. by rewrite Ht.
Qed.

(** C1.  Loading a registered map places the player by three tiers.  If an
    origin is given (the source's test [if from_map:], which [None] and the
    empty string fail) and the destination has an entry warp for it, the
    player stands exactly on that warp, whether or not a default spawnpoint
    exists.  Otherwise, if the destination has a default spawnpoint, the
    player stands there.  Otherwise the player stands on the first entry warp
    in iteration order.  The load fails exactly when the destination has
    neither a default spawnpoint nor any entry warp. *)
Theorem load_map_spawn_priority l game_map_id from_map tm :
  registry_get (tmx_maps l) game_map_id = Some tm →
  let out := load_map game_map_id from_map l in
  let matched := dict_get_id (tm_entry_warps tm) from_map in
  (∀ p, truthy from_map = true → matched = Some p →
        returned out = true ∧ pos (player (final out)) = p)
  ∧ (∀ p, truthy from_map = false ∨ matched = None →
          tm_spawnpoint tm = Some p →
          returned out = true ∧ pos (player (final out)) = p)
  ∧ (∀ k p rest, truthy from_map = false ∨ matched = None →
                 tm_spawnpoint tm = None →
                 tm_entry_warps tm = (k, p) :: rest →
                 returned out = true ∧ pos (player (final out)) = p)
  ∧ (returned out = false ↔ tm_spawnpoint tm = None ∧ tm_entry_warps tm = []).
Proof.
  intros Hreg out matched. subst out matched.
  rewrite (load_map_registered _ _ _ _ Hreg).
  destruct (resolve_spawn_cases (prepared tm l) game_map_id from_map tm)
    as [p Ht Hw | p l' ws Hno Hs _ _ _ _ | k p rest l' ws Hno Hs He _ _ _ _
        | l' ws Hs He _ _ _ _]; simpl.
  - split; [|split; [|split; [|split]]].
    + intros q _ Hq. split; [done|]. simpl. congruence.
    + intros q [?|?]; congruence.
    + intros k q rest [?|?]; congruence.
    + discriminate.
    + intros [_ He]. rewrite He, dict_get_id_nil in Hw. discriminate.
  - split; [|split; [|split; [|split]]].
    + intros q Ht Hq. destruct Hno; congruence.
    + intros q _ Hq. split; [done|]. simpl. congruence.
    + intros k q rest _ ?. congruence.
    + discriminate.
    + intros [? _]. congruence.
  - split; [|split; [|split; [|split]]].
    + intros q Ht Hq. destruct Hno; congruence.
    + intros q _ ?. congruence.
    + intros k' q rest' _ _ Hq. split; [done|]. simpl. congruence.
    + discriminate.
    + intros [_ ?]. congruence.
  - split; [|split; [|split; [|split]]].
    + intros q _ Hq. rewrite He, dict_get_id_nil in Hq. discriminate.
    + intros q _ ?. congruence.
    + intros k q rest _ _ ?. congruence.
    + done.
    + done.
Qed.

Lemma arrive_emitted l l' game_map_id tm p ws :
  trace l' = trace (prepared tm l) ++ ws →
  emitted l (arrive game_map_id tm p l') =
    [EvQuakerReset; EvCameraChangeSize (tm_size tm)] ++ ws
      ++ [EvRainSetFloorSize (tm_size tm)].
Proof.
  intros E. apply emitted_emit. simpl. rewrite E. simpl.
  by rewrite <- !app_assoc.
Qed.

(** C9, as the code has it.  A load warns once for each tier it tried and
    found unavailable.  When a given origin has no matching entry warp and
    the default spawnpoint is used, exactly one warning is emitted.  When no
    default spawnpoint exists and the first entry warp is used, one warning
    is emitted if no origin was given, and two (the unmatched origin, then
    the missing spawnpoint) if a given origin had no matching warp.  The
    position used in the last tier is a registered entry warp. *)
Theorem load_map_warnings l game_map_id from_map tm :
  registry_get (tmx_maps l) game_map_id = Some tm →
  let out := load_map game_map_id from_map l in
  let matched := dict_get_id (tm_entry_warps tm) from_map in
  let ws := warnings (emitted l (final out)) in
  (∀ p, truthy from_map = true → matched = None → tm_spawnpoint tm = Some p →
        pos (player (final out)) = p
        ∧ ws = [NoEntryWarp game_map_id (current_map l)])
  ∧ (∀ k p rest, truthy from_map = true → matched = None →
                 tm_spawnpoint tm = None → tm_entry_warps tm = (k, p) :: rest →
        pos (player (final out)) = p
        ∧ p ∈ dict_values (tm_entry_warps tm)
        ∧ ws = [NoEntryWarp game_map_id (current_map l);
                NoDefaultSpawnpoint game_map_id])
  ∧ (∀ k p rest, truthy from_map = false →
                 tm_spawnpoint tm = None → tm_entry_warps tm = (k, p) :: rest →
        pos (player (final out)) = p
        ∧ p ∈ dict_values (tm_entry_warps tm)
        ∧ ws = [NoDefaultSpawnpoint game_map_id]).
Proof.
  intros Hreg out matched ws. subst out matched ws.
  rewrite (load_map_registered _ _ _ _ Hreg).
  destruct (resolve_spawn_cases (prepared tm l) game_map_id from_map tm)
    as [p Ht Hw | p l' ws Hno Hs Hws Htr _ _
        | k p rest l' ws Hno Hs He Hws Htr _ _ | l' ws' Hs He _ _ _ _]; simpl.
  - split; [|split].
    + intros q _ ?. congruence.
    + intros k q rest _ ?. congruence.
    + intros k q rest ?. congruence.
  - split; [|split].
    + intros q Ht _ Hq. split; [congruence|].
      rewrite (arrive_emitted _ _ _ _ _ _ Htr), Hws, Ht. reflexivity.
    + intros k q rest _ _ ?. congruence.
    + intros k q rest _ ?. congruence.
  - split; [|split].
    + intros q _ _ ?. congruence.
    + intros k' q rest' Ht _ _ Hq. split; [congruence|]. split.
      * rewrite Hq. unfold dict_values. simpl. by left.
      * rewrite (arrive_emitted _ _ _ _ _ _ Htr), Hws, Ht. reflexivity.
    + intros k' q rest' Ht _ Hq. split; [congruence|]. split.
      * rewrite Hq. unfold dict_values. simpl. by left.
      * rewrite (arrive_emitted _ _ _ _ _ _ Htr), Hws, Ht. reflexivity.
  - split; [|split].
    + intros q _ _ ?. congruence.
    + intros k q rest _ _ _ ?. congruence.
    + intros k q rest _ _ ?. congruence.
Qed.

(** ** Switching maps *)

(** [load_map] against the resolver of the spec: where the resolver has a
    position the load returns with the player on it and the map current;
    where it has none the load raises and the current map stays. *)
Lemma load_map_refines_resolver l game_map_id from_map tm :
  registry_get (tmx_maps l) game_map_id = Some tm →
  let out := load_map game_map_id from_map l in
  match spawn_by_priority tm from_map with
  | Some p => returned out = true ∧ pos (player (final out)) = p
              ∧ current_map (final out) = game_map_id
  | None => returned out = false ∧ current_map (final out) = current_map l
            ∧ player (final out) = player l
  end.
Proof.
  intros Hreg out. subst out.
  rewrite (load_map_registered _ _ _ _ Hreg). unfold spawn_by_priority.
  destruct (resolve_spawn_cases (prepared tm l) game_map_id from_map tm)
    as [p Ht Hw | p l' ws Hno Hs _ _ _ _ | k p rest l' ws Hno Hs He _ _ _ _
        | l' ws Hs He _ _ Hp Hc]; simpl.
  - by rewrite Ht, Hw.
  - rewrite Hs. destruct Hno as [-> | ->]; [done|]. by destruct (truthy _).
  - rewrite Hs, He. simpl.
    destruct Hno as [-> | Hw]; [done|]. rewrite He in Hw. rewrite Hw.
    by destruct (truthy _).
  - rewrite Hs, He, dict_get_id_nil. simpl. rewrite Hp, Hc.
    by destruct (truthy _).
Qed.

Lemma load_map_keeps_current_map_on_failure l game_map_id from_map :
  returned (load_map game_map_id from_map l) = false →
  current_map (final (load_map game_map_id from_map l)) = current_map l.
Proof.
  destruct (registry_get (tmx_maps l) game_map_id) as [tm|] eqn:Hreg.
  - pose proof (load_map_refines_resolver l game_map_id from_map tm Hreg) as H.
    simpl in H. destruct (spawn_by_priority tm from_map).
    + destruct H as [-> _]. discriminate.
    + by destruct H as (_ & ? & _).
  - destruct (load_map_unregistered l game_map_id from_map Hreg)
      as (l' & -> & ? & _). done.
Qed.

Lemma load_map_current_map l game_map_id from_map :
  returned (load_map game_map_id from_map l) = true →
  current_map (final (load_map game_map_id from_map l)) = game_map_id.
Proof.
  destruct (registry_get (tmx_maps l) game_map_id) as [tm|] eqn:Hreg.
  - pose proof (load_map_refines_resolver l game_map_id from_map tm Hreg) as H.
    simpl in H. destruct (spawn_by_priority tm from_map).
    + by destruct H as (_ & _ & ?).
    + destruct H as [-> _]. discriminate.
  - destruct (load_map_unregistered l game_map_id from_map Hreg)
      as (l' & -> & _). discriminate.
Qed.

(** *** Steps that move no sprite *)

#[local] Instance quiet_trace_preorder : PreOrder (@quiet_trace Soil Scene).
Proof.
  split.
  - intros l. exists []. by rewrite app_nil_r.
  - intros l1 l2 l3 (e1 & E1 & F1) (e2 & E2 & F2).
    exists (e1 ++ e2). rewrite E2, E1, <- app_assoc. split; [done|].
    by apply Forall_app.
Qed.

#[local] Instance quiet_step_preorder : PreOrder (@quiet_step Soil Scene).
Proof.
  split.
  - intros l. by split.
  - intros l1 l2 l3 [T1 B1] [T2 B2]. split; [by etrans|congruence].
Qed.

Lemma quiet_trace_emit e l :
  is_movement e = false → quiet_trace l (emit e l).
Proof. intros He. exists [e]. split; [done|]. by constructor. Qed.

Lemma quiet_trace_same l l' : trace l' = trace l → quiet_trace l l'.
Proof. intros Ht. exists []. by rewrite app_nil_r. Qed.

Lemma quiet_step_emit e l :
  is_movement e = false → quiet_step l (emit e l).
Proof. intros He. split; [by apply quiet_trace_emit|done]. Qed.

Lemma quiet_step_same l l' :
  trace l' = trace l → blocked (player l') = blocked (player l) →
  quiet_step l l'.
Proof. intros Ht Hb. split; [by apply quiet_trace_same|done]. Qed.

Section Preserved.

Context (R : relation (@Level Soil Scene)) `{!PreOrder R}.

Lemma preserves_bind {A B} (m : M_ A) (k : A → M_ B) :
  preserves R m → (∀ a, preserves R (k a)) → preserves R (bind m k).
Proof.
  intros Hm Hk l. unfold bind. specialize (Hm l).
  destruct (m l) as [a l1|e l1]; simpl in *; [|done].
  etrans; [done|]. apply Hk.
Qed.

Lemma preserves_modify (f : @Level Soil Scene → @Level Soil Scene) :
  (∀ l, R l (f l)) → preserves R (modify f).
Proof. intros Hf l. apply Hf. Qed.

Lemma preserves_ret {A} (a : A) : preserves R (ret a).
Proof. intros l. simpl. reflexivity. Qed.

Lemma preserves_gets {A} (f : @Level Soil Scene → A) : preserves R (gets f).
Proof. intros l. simpl. reflexivity. Qed.

Lemma preserves_raise {A} e : preserves R (@raise _ _ A e).
Proof. intros l. simpl. reflexivity. Qed.

Lemma preserves_registry_item k : preserves R (registry_item k).
Proof.
  intros l. unfold registry_item.
  destruct (registry_get _ _); simpl; reflexivity.
Qed.

End Preserved.

Ltac quiet_with known :=
  repeat first
    [ known
    | apply preserves_bind; [tc_solve| |intros ?]
    | apply preserves_ret; tc_solve
    | apply preserves_gets; tc_solve
    | apply preserves_raise; tc_solve
    | apply preserves_registry_item; tc_solve
    | apply preserves_modify; intros ?;
        first [ by apply quiet_step_emit
              | by apply quiet_step_same
              | by apply quiet_trace_emit
              | by apply quiet_trace_same ]
    | match goal with
      | |- preserves _ (if ?b then _ else _) => destruct b
      | |- preserves _ (match ?o with Some _ => _ | None => _ end) => destruct o
      | |- preserves _ (match ?o with [] => _ | _ :: _ => _ end) => destruct o
      end ].

Ltac quiet := quiet_with fail.

Lemma resolve_spawn_quiet gm game_map_id from_map :
  quietly (resolve_spawn gm game_map_id from_map).
Proof.
  unfold resolve_spawn, entry_warp_spawn, default_spawn. quiet.
Qed.

Lemma load_map_quiet game_map_id from_map :
  quietly (load_map game_map_id from_map).
Proof. unfold load_map. quiet_with ltac:(apply resolve_spawn_quiet). Qed.

Lemma switch_to_map_quiet map_name :
  quietly (switch_to_map map_name).
Proof.
  unfold switch_to_map.
  apply preserves_bind; [tc_solve|apply preserves_gets; tc_solve|intros reg].
  apply preserves_bind; [tc_solve|apply preserves_gets; tc_solve|intros cur].
  destruct (registry_get reg map_name); [apply load_map_quiet|].
  apply preserves_bind; [tc_solve| |intros _; apply load_map_quiet].
  apply preserves_modify. intros l. by apply quiet_step_emit.
Qed.

Lemma bind_modify {A} (f : @Level Soil Scene → @Level Soil Scene)
    (k : unit → M_ A) l :
  bind (modify f) k l = k tt (f l).
Proof. reflexivity. Qed.

Lemma load_map_trace l game_map_id from_map :
  ∃ evs, trace (final (load_map game_map_id from_map l))
         = trace l ++ EvQuakerReset :: evs.
Proof.
  unfold load_map. rewrite !bind_modify.
  match goal with
  | |- context [final (bind ?m ?k ?l0)] =>
      assert (quietly (bind m k)) as Hq
        by quiet_with ltac:(apply resolve_spawn_quiet);
      destruct (Hq l0) as [(evs & E & _) _]
  end.
  rewrite E. simpl. rewrite <- app_assoc. eauto.
Qed.

(** C2.  For a target that is not in the registry, [switch_to_map] warns and
    reloads the current map with the missing identifier as origin: the current
    map identifier is the same afterwards, and once the current map resolves
    a spawn for that origin the player stands on it.  For a registered target
    it loads that target with the previously current map as origin. *)
Theorem switch_to_map_fallback l map_name :
  let out := switch_to_map map_name l in
  (registry_get (tmx_maps l) map_name = None →
     (∃ rest, emitted l (final out) = EvWarn (MapNotFound map_name) :: rest)
     ∧ out = load_map (current_map l) map_name
               (emit (EvWarn (MapNotFound map_name)) l)
     ∧ current_map (final out) = current_map l
     ∧ (∀ tm p, registry_get (tmx_maps l) (current_map l) = Some tm →
                spawn_by_priority tm map_name = Some p →
                returned out = true ∧ pos (player (final out)) = p))
  ∧ (∀ tm, registry_get (tmx_maps l) map_name = Some tm →
           out = load_map map_name (current_map l) l).
Proof.
  intros out. subst out. split.
  - intros Hreg.
    assert (Hsw : switch_to_map map_name l
                  = load_map (current_map l) map_name
                      (emit (EvWarn (MapNotFound map_name)) l)).
    { unfold switch_to_map, bind, gets, modify. by rewrite Hreg. }
    rewrite Hsw. set (warned := emit (EvWarn (MapNotFound map_name)) l).
    split; [|split; [done|split]].
    + destruct (load_map_trace warned (current_map l) map_name) as [evs E].
      exists (EvQuakerReset :: evs). apply emitted_emit. rewrite E.
      subst warned. simpl. by rewrite <- app_assoc.
    + destruct (returned (load_map (current_map l) map_name warned)) eqn:R.
      * by apply load_map_current_map.
      * by rewrite load_map_keeps_current_map_on_failure.
    + intros tm p Hcur Hp.
      pose proof (load_map_refines_resolver warned (current_map l) map_name tm
                    Hcur) as H.
      simpl in H. rewrite Hp in H. by destruct H as (? & ? & _).
  - intros tm Hreg. unfold switch_to_map, bind, gets. by rewrite Hreg.
Qed.

(** ** Tool use *)

Lemma play_trace sound entity l :
  trace (_play_playeronly_sound sound entity l)
  = trace l ++ (if is_player entity then [EvSound sound] else []).
Proof.
  unfold _play_playeronly_sound. destruct (is_player entity); simpl; [done|].
  by rewrite app_nil_r.
Qed.

Lemma play_tree_sprites sound entity l :
  tree_sprites (_play_playeronly_sound sound entity l) = tree_sprites l.
Proof. unfold _play_playeronly_sound. by destruct (is_player entity). Qed.

Lemma play_soil_layer sound entity l :
  soil_layer (_play_playeronly_sound sound entity l) = soil_layer l.
Proof. unfold _play_playeronly_sound. by destruct (is_player entity). Qed.

(** The loop of the [AXE] case over distinct places [refs]. *)
Lemma chop_fold entity refs : ∀ l,
  NoDup refs →
  let l' := foldl (chop entity) l refs in
  (∀ i, tree_sprites l' !! i
        = if bool_decide (i ∈ refs) then hit <$> tree_sprites l !! i
          else tree_sprites l !! i)
  ∧ trace l' = trace l ++ (if is_player entity
                           then replicate (length refs) (EvSound "axe") else [])
  ∧ soil_layer l' = soil_layer l
  ∧ length (tree_sprites l') = length (tree_sprites l).
Proof.
  induction refs as [|a refs IH]; intros l Hnd; simpl.
  - split; [done|]. split; [|done]. destruct (is_player entity); by rewrite app_nil_r.
  - apply NoDup_cons in Hnd as [Ha Hnd].
    destruct (IH (chop entity l a) Hnd) as (Ht & Htr & Hs & Hlen).
    split; [|split; [|split]].
    + intros i. rewrite Ht. unfold chop. rewrite play_tree_sprites. simpl.
      destruct (decide (i = a)) as [->|Hia].
      * rewrite (bool_decide_eq_false_2 _ Ha).
        rewrite bool_decide_eq_true_2 by (by left).
        apply list_lookup_alter_eq.
      * rewrite list_lookup_alter_ne by done.
        destruct (decide (i ∈ refs)) as [Hin|Hin].
        -- rewrite (bool_decide_eq_true_2 _ Hin).
           rewrite bool_decide_eq_true_2 by (by right). done.
        -- rewrite (bool_decide_eq_false_2 _ Hin).
           rewrite bool_decide_eq_false_2; [done|].
           intros [?|?]%elem_of_cons; done.
    + rewrite Htr. unfold chop. rewrite play_trace. simpl.
      destruct (is_player entity); simpl; by rewrite <- app_assoc.
    + rewrite Hs. unfold chop. by rewrite play_soil_layer.
    + rewrite Hlen. unfold chop. rewrite play_tree_sprites. simpl.
      apply length_alter.
Qed.

Lemma spritecollide_refs_NoDup {A} (f : A → bool) group :
  NoDup (spritecollide_refs f group).
Proof. unfold spritecollide_refs. apply NoDup_filter, NoDup_seq. Qed.

Lemma spritecollide_refs_elem {A} (f : A → bool) group i :
  i ∈ spritecollide_refs f group ↔ ∃ x, group !! i = Some x ∧ f x = true.
Proof.
  unfold spritecollide_refs. rewrite list_elem_of_filter, elem_of_seq. split.
  - intros [Hf _]. destruct (group !! i) as [x|]; simpl in Hf; [eauto|done].
  - intros (x & Hx & Hf). rewrite Hx. simpl. split; [done|].
    apply lookup_lt_Some in Hx. lia.
Qed.

Lemma filter_agree {A} (P Q : A → Prop) `{!∀ x, Decision (P x)}
    `{!∀ x, Decision (Q x)} (xs : list A) :
  (∀ x, x ∈ xs → P x ↔ Q x) → filter P xs = filter Q xs.
Proof.
  induction xs as [|x xs IH]; intros Hpq; [done|].
  rewrite !filter_cons.
  assert (P x ↔ Q x) as Hx by (apply Hpq; by left).
  rewrite IH by (intros y Hy; apply Hpq; by right).
  destruct (decide (P x)), (decide (Q x)); tauto || done.
Qed.

(** As many places as [spritecollide] returns sprites. *)
Lemma spritecollide_refs_length {A} (f : A → bool) group :
  length (spritecollide_refs f group) = length (spritecollide f group).
Proof.
  unfold spritecollide_refs, spritecollide.
  induction group as [|x group IH] using rev_ind; [done|].
  rewrite length_app. simpl. rewrite Nat.add_1_r, seq_S, !filter_app, !length_app.
  simpl. f_equal.
  - rewrite <- IH. f_equal. apply filter_agree.
    intros i Hi%elem_of_seq. by rewrite lookup_app_l by lia.
  - rewrite (filter_cons _ (length group)), (filter_cons _ x).
    rewrite list_lookup_middle by done. simpl.
    destruct (decide (f x = true)); done.
Qed.

(** C6.  Chopping hits every tree whose hitbox meets the actor's axe hitbox
    exactly once and leaves every other tree as it was; the chop sound is
    played once for each tree hit when the actor is the player, and not at
    all when it is not. *)
Theorem apply_tool_axe l p entity :
  let l' := apply_tool AXE p entity l in
  let struck := spritecollide (axe_collided entity) (tree_sprites l) in
  (∀ i tree, tree_sprites l !! i = Some tree →
     ∃ tree', tree_sprites l' !! i = Some tree'
       ∧ tree' = (if axe_collided entity tree then hit tree else tree)
       ∧ hits tree'
         = (hits tree + (if axe_collided entity tree then 1 else 0))%nat)
  ∧ length (tree_sprites l') = length (tree_sprites l)
  ∧ emitted l l' = (if is_player entity
                    then replicate (length struck) (EvSound "axe") else []).
Proof.
  intros l' struck. subst l' struck. unfold apply_tool.
  destruct (chop_fold entity
              (spritecollide_refs (axe_collided entity) (tree_sprites l)) l
              (spritecollide_refs_NoDup _ _)) as (Ht & Htr & _ & Hlen).
  split; [|split; [done|]].
  - intros i tree Hi. rewrite Ht, Hi. simpl.
    destruct (axe_collided entity tree) eqn:Hc.
    + rewrite bool_decide_eq_true_2
        by (apply spritecollide_refs_elem; eauto).
      eexists. split; [done|]. split; [done|]. simpl. lia.
    + rewrite bool_decide_eq_false_2.
      * eexists. split; [done|]. split; [done|]. lia.
      * intros (x & Hx & Hf)%spritecollide_refs_elem. congruence.
  - apply emitted_emit. rewrite Htr. by rewrite spritecollide_refs_length.
Qed.

(** C7, as the code has it.  Every sound of the dispatch goes through the
    player-only gate: a non-player actor plays none.  For the player, the
    till sound plays exactly when tilling reports success, the water sound
    plays whatever watering did, and any other tool plays the plant sound
    when planting reports success and the can't-plant sound when it does
    not.  One branch runs: chopping leaves the soil alone, and the other
    three leave the trees alone and apply their one soil operation. *)
Theorem apply_tool_sound_gating l p entity tool :
  let l' := apply_tool tool p entity l in
  let played := sounds (emitted l l') in
  match tool with
  | AXE => soil_layer l' = soil_layer l
  | HOE =>
      soil_layer l' = (soil_hoe p (soil_layer l)).1
      ∧ tree_sprites l' = tree_sprites l
      ∧ played = (if is_player entity && (soil_hoe p (soil_layer l)).2
                  then ["hoe"] else [])
  | WATERING_CAN =>
      soil_layer l' = soil_water p (soil_layer l)
      ∧ tree_sprites l' = tree_sprites l
      ∧ played = (if is_player entity then ["water"] else [])
  | OTHER _ =>
      soil_layer l' = (soil_plant p tool (soil_layer l)).1
      ∧ tree_sprites l' = tree_sprites l
      ∧ played = (if is_player entity
                  then [if (soil_plant p tool (soil_layer l)).2
                        then "plant" else "cant_plant"]
                  else [])
  end.
Proof.
  intros l' played. subst l' played. unfold apply_tool. destruct tool.
  - by destruct (chop_fold entity
                (spritecollide_refs (axe_collided entity) (tree_sprites l)) l
                (spritecollide_refs_NoDup _ _)) as (_ & _ & ? & _).
  - destruct (soil_hoe p (soil_layer l)) as [soil ok]. simpl.
    destruct ok; rewrite ?play_soil_layer, ?play_tree_sprites; simpl.
    + split; [done|]. split; [done|].
      erewrite emitted_emit by (rewrite play_trace; reflexivity).
      by destruct (is_player entity).
    + split; [done|]. split; [done|].
      erewrite (emitted_emit _ []) by (simpl; by rewrite app_nil_r).
      by rewrite andb_false_r.
  - rewrite play_soil_layer, play_tree_sprites. simpl.
    split; [done|]. split; [done|].
    erewrite emitted_emit by (rewrite play_trace; reflexivity).
    by destruct (is_player entity).
  - destruct (soil_plant p (OTHER value) (soil_layer l)) as [soil ok]. simpl.
    destruct ok; rewrite play_soil_layer, play_tree_sprites; simpl.
    all: split; [done|]; split; [done|].
    all: erewrite emitted_emit by (rewrite play_trace; reflexivity).
    all: by destruct (is_player entity).
Qed.

(** ** Interaction and events *)

Lemma activate_active t : active (activate t) = true.
Proof. unfold activate. by destruct (active t) eqn:E. Qed.

(** C10.  [interact] looks at the first collided interaction sprite only.  If
    it is named "Bed" the day transition is started (the transition is Active
    and the player blocked afterwards); if it is named "Trader" the screen
    switches to the shop; with any other name, and when nothing collides, the
    level is left as it was.  Sprites after the first play no part. *)
Theorem interact_first_only l :
  let collided_interactions :=
    spritecollide (λ s, colliderect (char_rect (player l)) (rect s))
                  (interaction_sprites l) in
  match collided_interactions with
  | [] => interact l = l
  | first :: others =>
      (name first = "Bed" →
         interact l = start_day_transition l
         ∧ active (day_transition (interact l)) = true
         ∧ blocked (player (interact l)) = true)
      ∧ (name first = "Trader" →
           interact l = emit (EvSwitchScreen SHOP) l)
      ∧ (name first ≠ "Bed" → name first ≠ "Trader" → interact l = l)
  end.
Proof.
  intros collided. subst collided. unfold interact.
  destruct (spritecollide _ _) as [|first others]; [done|].
  split; [|split].
  - intros ->. simpl. split; [done|]. split; [|done]. apply activate_active.
  - by intros ->.
  - intros Hb Ht. apply String.eqb_neq in Hb, Ht. by rewrite Hb, Ht.
Qed.

(** C8 at the start-quake signal.  The level acts on the signal, starting the
    screen shake with the event's duration, and still returns false; each
    key the level acts on returns true. *)
Theorem handle_event_start_quake l duration :
  handle_event (START_QUAKE duration) l
  = (false, emit (EvQuakerStart duration) l)
  ∧ emitted l (handle_event (START_QUAKE duration) l).2
    = [EvQuakerStart duration]
  ∧ (∀ key, (handle_event (KEYDOWN key) l).2 ≠ l →
            (handle_event (KEYDOWN key) l).1 = true).
Proof.
  split; [done|]. split; [by apply emitted_emit|].
  intros key. unfold handle_event.
  repeat (match goal with |- context [if ?b then _ else _] => destruct b end;
          [done|]).
  done.
Qed.

(** ** The day reset *)

(** C5.  One firing of [reset] adds exactly one to the day counter, advances
    the soil grid one day (and hands it the new rain flag), sets the rain flag
    to whether the draw exceeds 7, which 3 of the 11 draws of
    [randint(0, 10)] do, replaces the fruit of every tree that is alive by
    freshly created fruit, and sets the sky clock to 06:00. *)
Theorem reset_day l r :
  let l' := reset r l in
  current_day l' = current_day l + 1
  ∧ soil_layer l' = soil_set_raining (raining l') (soil_update (soil_layer l))
  ∧ (raining l' = true ↔ r > 7)
  ∧ length (filter (λ d, raining (reset d l) = true) randint_0_10) = 3%nat
  ∧ length randint_0_10 = 11%nat
  ∧ length (tree_sprites l') = length (tree_sprites l)
  ∧ (∀ i tree, tree_sprites l !! i = Some tree →
       ∃ tree', tree_sprites l' !! i = Some tree'
         ∧ alive tree' = alive tree
         ∧ fruit_sprites tree'
           = (if alive tree then create_fruit (kill_fruit tree) else []))
  ∧ sky_time (sky l') = (6, 0).
Proof.
  intros l'. subst l'. unfold reset. simpl.
  split; [done|]. split; [done|]. split.
  { rewrite Z.gtb_gt. lia. }
  split; [done|]. split; [done|]. split; [by rewrite length_map|].
  split; [|done].
  intros i tree Hi. rewrite list_lookup_fmap, Hi. simpl.
  eexists. split; [done|]. unfold regrow.
  destruct tree as [hb [|] fruit n]; simpl; by rewrite ?app_nil_l.
Qed.

(** ** Leaving the map *)

(** The scan stops at the first warp the player overlaps. *)
Lemma scan_exit_warps_first l warps :
  scan_exit_warps warps l =
    match spritecollide (overlaps_player l) warps with
    | [] => l
    | warp_hitbox :: _ =>
        start_map_transition
          (set_map_transition
             (set_reset (CbSwitchToMap (Some (name warp_hitbox)))
                        (map_transition l)) l)
    end.
Proof.
  unfold spritecollide, overlaps_player.
  induction warps as [|w warps IH]; [done|].
  simpl. rewrite filter_cons.
  destruct (colliderect (hitbox_rect (player l)) (rect w)) eqn:Hw.
  - by rewrite decide_True.
  - by rewrite decide_False.
Qed.

(** C3, as the code has it.  Exit warps are scanned only while the map
    transition is not Active.  On the first warp the player overlaps, the
    level changes in four ways and in no other, and the scan stops: the
    transition's reset callback becomes a switch to that warp's target, the
    transition is activated, the player's blocked flag is set, and the
    player's direction is set to the zero vector. *)
Theorem check_map_exit_first_overlap l :
  (active (map_transition l) = true → check_map_exit l = l)
  ∧ (active (map_transition l) = false →
     match spritecollide (overlaps_player l) (player_exit_warps l) with
     | [] => check_map_exit l = l
     | warp_hitbox :: _ =>
         let l' := check_map_exit l in
         reset_cb (map_transition l') = CbSwitchToMap (Some (name warp_hitbox))
         ∧ active (map_transition l') = true
         ∧ blocked (player l') = true
         ∧ direction (player l') = (0, 0)
         ∧ l' = set_player
                  (set_direction (0, 0) (set_blocked true (player l)))
                  (set_map_transition
                     (mkTransition true 0 (dur (map_transition l)) false
                        (CbSwitchToMap (Some (name warp_hitbox)))
                        (finish_reset (map_transition l))) l)
     end).
Proof.
  unfold check_map_exit. split; intros Hact; rewrite Hact; simpl; [done|].
  rewrite scan_exit_warps_first.
  destruct (spritecollide _ _) as [|warp_hitbox others]; [done|].
  unfold start_map_transition, start_transition, activate. simpl.
  by rewrite Hact.
Qed.

(** ** One frame *)

Lemma resolve_spawn_silent gm game_map_id from_map :
  silently (resolve_spawn gm game_map_id from_map).
Proof. unfold resolve_spawn, entry_warp_spawn, default_spawn. quiet. Qed.

Lemma load_map_silent game_map_id from_map :
  silently (load_map game_map_id from_map).
Proof. unfold load_map. quiet_with ltac:(apply resolve_spawn_silent). Qed.

Lemma switch_to_map_silent map_name : silently (switch_to_map map_name).
Proof.
  unfold switch_to_map.
  apply preserves_bind; [tc_solve|apply preserves_gets; tc_solve|intros reg].
  apply preserves_bind; [tc_solve|apply preserves_gets; tc_solve|intros cur].
  destruct (registry_get reg map_name); [apply load_map_silent|].
  apply preserves_bind; [tc_solve| |intros _; apply load_map_silent].
  apply preserves_modify. intros l. by apply quiet_trace_emit.
Qed.

(** No callback moves a sprite. *)
Lemma run_callback_silent r c : silently (run_callback r c).
Proof.
  destruct c; simpl; quiet_with ltac:(apply switch_to_map_silent).
Qed.

(** Only [finish_transition] touches the blocked flag. *)
Lemma run_callback_quiet r c :
  c ≠ CbFinishTransition → quietly (run_callback r c).
Proof.
  intros Hc. destruct c; simpl; [| | |done];
    quiet_with ltac:(apply switch_to_map_quiet).
Qed.

Lemma transition_of_emit w e l : transition_of w (emit e l) = transition_of w l.
Proof. by destruct w. Qed.

Lemma on_transition_trace w f l : trace (on_transition w f l) = trace l.
Proof. by destruct w. Qed.

Lemma on_transition_player w f l : player (on_transition w f l) = player l.
Proof. by destruct w. Qed.

Lemma transition_update_advance w ms r l :
  transition_update w ms r l = advance w ms r (emit (EvTransitionUpdate w) l).
Proof. reflexivity. Qed.

Lemma advance_silent w ms r : silently (advance w ms r).
Proof.
  unfold advance.
  quiet_with ltac:(first [ apply run_callback_silent
                         | apply preserves_modify; intros ?;
                           apply quiet_trace_same, on_transition_trace ]).
Qed.

(** A transition update adds its own entry to the trace, then entries that
    move no sprite. *)
Lemma transition_update_trace w ms r l :
  ∃ evs, trace (final (transition_update w ms r l))
         = trace l ++ EvTransitionUpdate w :: evs
         ∧ Forall (λ e, is_movement e = false) evs.
Proof.
  rewrite transition_update_advance.
  destruct (advance_silent w ms r (emit (EvTransitionUpdate w) l))
    as (evs & E & F).
  exists evs. split; [|done]. rewrite E. simpl. by rewrite <- app_assoc.
Qed.

(** A transition that does not end in this update, and whose midpoint
    callback is not [finish_transition], leaves the blocked flag alone. *)
Lemma transition_update_quiet w ms r l :
  finishes ms (transition_of w l) = false →
  reset_cb (transition_of w l) ≠ CbFinishTransition →
  quiet_step l (final (transition_update w ms r l)).
Proof.
  intros Hfin Hcb. rewrite transition_update_advance.
  transitivity (emit (EvTransitionUpdate w) l); [by apply quiet_step_emit|].
  set (l0 := emit (EvTransitionUpdate w) l).
  assert (transition_of w l0 = transition_of w l) as Ht
    by apply transition_of_emit.
  unfold advance, bind at 1, gets. rewrite Ht.
  unfold finishes in Hfin.
  destruct (active (transition_of w l)); [|simpl; reflexivity].
  simpl in Hfin. rewrite Hfin.
  assert (quietly
    (bind (modify (on_transition w
                     (set_elapsed (elapsed (transition_of w l) + ms))))
       (λ _, bind
          (if negb (peaked (transition_of w l))
              && (dur (transition_of w l)
                  <=? 2 * (elapsed (transition_of w l) + ms))
           then bind (modify (on_transition w set_peaked))
                  (λ _, run_callback r (reset_cb (transition_of w l)))
           else ret tt)
          (λ _, ret tt)))) as Hq.
  { quiet_with ltac:(first [ by apply run_callback_quiet
                           | apply preserves_modify; intros ?;
                             apply quiet_step_same;
                             [ apply on_transition_trace
                             | by rewrite on_transition_player ] ]). }
  apply Hq.
Qed.

Lemma day_update_keeps_map_transition ms r l :
  reset_cb (day_transition l) = CbReset →
  finishes ms (day_transition l) = false →
  map_transition (final (transition_update Day ms r l)) = map_transition l.
Proof.
  intros Hcb Hfin. unfold transition_update, advance, bind, gets, modify.
  simpl. rewrite Hcb. unfold finishes in Hfin.
  destruct (active (day_transition l)); [|done].
  simpl in Hfin. rewrite Hfin.
  by destruct (negb _ && _).
Qed.

Lemma check_map_exit_trace l : trace (check_map_exit l) = trace l.
Proof.
  unfold check_map_exit. destruct (negb _); [|done].
  rewrite scan_exit_warps_first. by destruct (spritecollide _ _).
Qed.

Lemma check_map_exit_day_transition l :
  day_transition (check_map_exit l) = day_transition l.
Proof.
  unfold check_map_exit. destruct (negb _); [|done].
  rewrite scan_exit_warps_first. by destruct (spritecollide _ _).
Qed.

Lemma update_rain_quiet l : quiet_trace l (update_rain l).
Proof.
  unfold update_rain. destruct (raining l); [by apply quiet_trace_emit|].
  reflexivity.
Qed.

Lemma update_cutscene_trace dt l : trace (update_cutscene dt l) = trace l.
Proof. unfold update_cutscene. by destruct (scene_active _). Qed.

(** The trace of the [if move_things:] block: the sprites first. *)
Lemma move_trace dt l :
  ∃ rest, trace (move dt l)
          = trace l ++ (if scene_active (cutscene_animation l)
                        then EvSpritesUpdateBlocked
                        else EvSpritesUpdate (blocked (player l))) :: rest.
Proof.
  unfold move. simpl. rewrite <- !app_assoc. simpl.
  destruct (scene_active (cutscene_animation l)); simpl;
    rewrite update_cutscene_trace; simpl; rewrite <- !app_assoc; simpl; eauto.
Qed.

Lemma move_show_hitbox_active dt l :
  show_hitbox_active (move dt l) = show_hitbox_active l.
Proof.
  unfold move, update_cutscene. simpl.
  repeat match goal with
         | |- context [if ?b then _ else _] => destruct b; simpl
         end; reflexivity.
Qed.

(** The level after the exit check found a warp under the player. *)
Lemma check_map_exit_activates l :
  active (map_transition l) = false →
  spritecollide (overlaps_player l) (player_exit_warps l) ≠ [] →
  blocked (player (check_map_exit l)) = true
  ∧ ∃ target,
      map_transition (check_map_exit l)
      = mkTransition true 0 (dur (map_transition l)) false
          (CbSwitchToMap target) (finish_reset (map_transition l)).
Proof.
  intros Hact Hwarp. unfold check_map_exit. rewrite Hact. simpl.
  rewrite scan_exit_warps_first.
  destruct (spritecollide _ _) as [|warp_hitbox others]; [done|].
  unfold start_map_transition, start_transition, activate. simpl.
  rewrite Hact. simpl. eauto.
Qed.

(** C4, as the code has it.  In a frame that moves things, both transitions
    are advanced before the sprites are updated, and nothing before that
    update moves a sprite.  When the exit check of the frame activates the
    map transition, the player's blocked flag is set by that check: unless a
    transition ends within the frame, the sprites of this same frame are
    updated with the player blocked (or in the cutscene's blocked mode).
    The block does not wait for the next frame. *)
Theorem update_order_and_blocking l dt ms r l' :
  update dt true ms r l = Ok tt l' →
  ∃ before sprites after,
    emitted l l' = before ++ sprites :: after
    ∧ EvTransitionUpdate Day ∈ before
    ∧ EvTransitionUpdate Map ∈ before
    ∧ Forall (λ e, is_movement e = false) before
    ∧ is_movement sprites = true
    ∧ (active (map_transition l) = false →
       spritecollide (overlaps_player l) (player_exit_warps l) ≠ [] →
       reset_cb (day_transition l) = CbReset →
       finishes ms (day_transition l) = false →
       ms < dur (map_transition l) →
       sprites = EvSpritesUpdateBlocked ∨ sprites = EvSpritesUpdate true).
Proof.
  intros Hup. unfold update in Hup. rewrite !bind_modify in Hup.
  set (l1 := update_rain (check_map_exit l)) in *.
  unfold bind at 1 in Hup.
  destruct (transition_update Day ms r l1) as [[] l2|] eqn:E2; [|done].
  unfold bind at 1 in Hup.
  destruct (transition_update Map ms r l2) as [[] l3|] eqn:E3; [|done].
  rewrite !bind_modify in Hup. unfold modify in Hup.
  injection Hup as <-.
  (* the trace, stage by stage *)
  assert (quiet_trace l l1) as (e1 & T1 & F1).
  { transitivity (check_map_exit l); [|apply update_rain_quiet].
    apply quiet_trace_same, check_map_exit_trace. }
  destruct (transition_update_trace Day ms r l1) as (e2 & T2 & F2).
  rewrite E2 in T2. simpl in T2.
  destruct (transition_update_trace Map ms r l2) as (e3 & T3 & F3).
  rewrite E3 in T3. simpl in T3.
  destruct (move_trace dt l3) as (rest & T4).
  set (sprites := if scene_active (cutscene_animation l3)
                  then EvSpritesUpdateBlocked
                  else EvSpritesUpdate (blocked (player l3))) in *.
  exists (e1 ++ EvTransitionUpdate Day :: e2 ++ EvTransitionUpdate Map :: e3),
         sprites,
         (rest ++ EvDraw true
            :: (if show_hitbox_active l3 then [EvDrawHitboxes] else [])).
  split; [|split; [|split; [|split; [|split]]]].
  - apply emitted_emit. unfold draw_hitboxes, draw.
    assert (show_hitbox_active (emit (EvDraw true) (move dt l3))
            = show_hitbox_active l3) as -> by apply move_show_hitbox_active.
    destruct (show_hitbox_active l3); rewrite ?trace_emit, T4, T3, T2, T1;
      rewrite <- !app_assoc; simpl; rewrite <- ?app_assoc; simpl;
      reflexivity.
  - apply elem_of_app. right. by left.
  - apply elem_of_app. right. right. apply elem_of_app. right. by left.
  - apply Forall_app. split; [done|]. constructor; [done|].
    apply Forall_app. split; [done|]. by constructor.
  - subst sprites. by destruct (scene_active _).
  - intros Hact Hwarp Hcb Hday Hms.
    destruct (check_map_exit_activates l Hact Hwarp) as (Hb & target & Hmt).
    assert (player l1 = player (check_map_exit l)) as Hp1.
    { subst l1. unfold update_rain. by destruct (raining _). }
    assert (day_transition l1 = day_transition l) as Hd1.
    { subst l1. unfold update_rain.
      destruct (raining _); simpl; apply check_map_exit_day_transition. }
    assert (map_transition l1 = map_transition (check_map_exit l)) as Hm1.
    { subst l1. unfold update_rain. by destruct (raining _). }
    (* the day transition leaves the flag and the map transition alone *)
    assert (quiet_step l1 l2) as [_ Hb2].
    { replace l2 with (final (transition_update Day ms r l1))
        by (by rewrite E2).
      apply transition_update_quiet; simpl; rewrite Hd1; [done|].
      by rewrite Hcb. }
    assert (map_transition l2 = map_transition l1) as Hm2.
    { replace l2 with (final (transition_update Day ms r l1))
        by (by rewrite E2).
      apply day_update_keeps_map_transition; by rewrite Hd1. }
    (* the map transition has just begun *)
    assert (quiet_step l2 l3) as [_ Hb3].
    { replace l3 with (final (transition_update Map ms r l2))
        by (by rewrite E3).
      apply transition_update_quiet; simpl; rewrite Hm2, Hm1, Hmt; simpl.
      - unfold finishes. simpl. apply Z.leb_gt. lia.
      - done. }
    subst sprites. destruct (scene_active _); [by left|right].
    by rewrite Hb3, Hb2, Hp1, Hb.
Qed.

(** * Further properties of the level *)

(** ** What a map load leaves behind *)

#[local] Instance only_trace_preorder : PreOrder (@only_trace Soil Scene).
Proof.
  split.
  - intros l. exists (trace l). by destruct l.
  - intros l1 l2 l3 [t1 ->] [t2 ->]. by exists t2.
Qed.

#[local] Instance same_session_preorder : PreOrder (@same_session Soil Scene).
Proof.
  split.
  - intros l. by repeat split.
  - intros l1 l2 l3 H1 H2. unfold same_session in *.
    destruct H1 as (?&?&?&?&?&?&?&?&?&?&?), H2 as (?&?&?&?&?&?&?&?&?&?&?).
    repeat split; congruence.
Qed.

#[local] Instance undrawn_preorder : PreOrder (@undrawn Soil Scene).
Proof.
  split.
  - intros l. exists []. by rewrite app_nil_r.
  - intros l1 l2 l3 (e1 & E1 & F1) (e2 & E2 & F2).
    exists (e1 ++ e2). rewrite E2, E1, <- app_assoc. split; [done|].
    by apply Forall_app.
Qed.

(** Walks a computation of the monad; [known] closes calls already dealt
    with, [solver] the single state changes. *)
Ltac steps known solver :=
  repeat first
    [ known
    | apply preserves_bind; [tc_solve| |intros ?]
    | apply preserves_ret; tc_solve
    | apply preserves_gets; tc_solve
    | apply preserves_raise; tc_solve
    | apply preserves_registry_item; tc_solve
    | apply preserves_modify; intros ?; solver
    | match goal with
      | |- preserves _ (if ?b then _ else _) => destruct b
      | |- preserves _ (match ?o with Some _ => _ | None => _ end) => destruct o
      | |- preserves _ (match ?o with [] => _ | _ :: _ => _ end) => destruct o
      end ].

Lemma resolve_spawn_only_trace gm game_map_id from_map :
  preserves (@only_trace Soil Scene) (resolve_spawn gm game_map_id from_map).
Proof.
  unfold resolve_spawn, entry_warp_spawn, default_spawn.
  steps fail ltac:(by eexists).
Qed.

Lemma resolve_spawn_same_session gm game_map_id from_map :
  preserves (@same_session Soil Scene) (resolve_spawn gm game_map_id from_map).
Proof.
  unfold resolve_spawn, entry_warp_spawn, default_spawn.
  steps fail ltac:(by repeat split).
Qed.

Lemma load_map_same_session game_map_id from_map :
  preserves (@same_session Soil Scene) (load_map game_map_id from_map).
Proof.
  unfold load_map.
  steps ltac:(apply resolve_spawn_same_session) ltac:(by repeat split).
Qed.

(** X3.  Neither [load_map] nor [switch_to_map], returning or raising,
    touches the registry, the player's blocked flag, direction and controls,
    either transition, the day counter, the weather, the sky or the hitbox
    switch: a map switch in the middle of a transition leaves the player
    blocked and the transition running. *)
Theorem map_loads_keep_session l game_map_id from_map :
  same_session l (final (load_map game_map_id from_map l))
  ∧ same_session l (final (switch_to_map game_map_id l)).
Proof.
  split; [apply load_map_same_session|].
  revert l. change (preserves (@same_session Soil Scene)
                      (switch_to_map game_map_id)).
  unfold switch_to_map.
  apply preserves_bind; [tc_solve|apply preserves_gets; tc_solve|intros reg].
  apply preserves_bind; [tc_solve|apply preserves_gets; tc_solve|intros cur].
  destruct (registry_get reg game_map_id); [apply load_map_same_session|].
  apply preserves_bind; [tc_solve| |intros _; apply load_map_same_session].
  apply preserves_modify. intros l. by repeat split.
Qed.

(** X1.  Loading an identifier that is not in the registry raises [KeyError]
    after the level was cleared: the tree, interaction and exit-warp groups
    are empty and the soil is reset, while the current map, its descriptor
    and the player are still those of the map that was showing. *)
Theorem load_map_unregistered_clears l game_map_id from_map :
  registry_get (tmx_maps l) game_map_id = None →
  ∃ l', load_map game_map_id from_map l = Raise (KeyError game_map_id) l'
        ∧ tree_sprites l' = [] ∧ interaction_sprites l' = []
        ∧ player_exit_warps l' = []
        ∧ soil_layer l' = soil_reset (soil_layer l)
        ∧ emitted l l' = [EvQuakerReset]
        ∧ current_map l' = current_map l
        ∧ game_map l' = game_map l
        ∧ player l' = player l.
Proof.
  intros Hreg. unfold load_map, bind, modify, registry_item. simpl.
  rewrite Hreg. eexists. split; [reflexivity|]. simpl.
  repeat split. by apply emitted_emit.
Qed.

(** X2.  Loading a registered map that has neither a default spawnpoint nor
    an entry warp raises [StopIteration] half way: the groups and the
    descriptor are already those of the new map, but the player was not
    moved, the current map still names the old one, the rain floor was not
    resized and the cutscene was set up but not started. *)
Theorem load_map_no_spawn_half_loaded l game_map_id from_map tm :
  registry_get (tmx_maps l) game_map_id = Some tm →
  tm_spawnpoint tm = None →
  tm_entry_warps tm = [] →
  ∃ l', load_map game_map_id from_map l = Raise StopIteration l'
        ∧ tree_sprites l' = tm_trees tm
        ∧ interaction_sprites l' = tm_interactions tm
        ∧ player_exit_warps l' = tm_exit_warps tm
        ∧ game_map l' = Some (descriptor tm)
        ∧ cutscene_animation l' = scene_setup tm (cutscene_animation l)
        ∧ current_map l' = current_map l
        ∧ player l' = player l
        ∧ EvRainSetFloorSize (tm_size tm) ∉ emitted l l'.
Proof.
  intros Hreg Hs He. rewrite (load_map_registered _ _ _ _ Hreg).
  unfold resolve_spawn, entry_warp_spawn, default_spawn, bind, modify, gets,
    ret, raise, dict_values. simpl. rewrite Hs, He, dict_get_id_nil. simpl.
  destruct (truthy from_map); simpl; eexists; (split; [reflexivity|]);
    simpl; repeat split; try reflexivity.
  - erewrite emitted_emit
      by (simpl; rewrite <- !app_assoc; simpl; reflexivity).
    intros H.
    repeat (apply elem_of_cons in H as [H|H]; [discriminate H|]).
    by apply elem_of_nil in H.
  - erewrite emitted_emit
      by (simpl; rewrite <- !app_assoc; simpl; reflexivity).
    intros H.
    repeat (apply elem_of_cons in H as [H|H]; [discriminate H|]).
    by apply elem_of_nil in H.
Qed.

(** A load of a registered map returns, or raises [StopIteration] on a map
    without any spawn. *)
Lemma load_map_registered_outcome l game_map_id from_map tm :
  registry_get (tmx_maps l) game_map_id = Some tm →
  (∃ p tr, load_map game_map_id from_map l
           = Ok tt (arrive game_map_id tm p (with_trace tr (prepared tm l)))
           ∧ spawn_by_priority tm from_map = Some p)
  ∨ (∃ l', load_map game_map_id from_map l = Raise StopIteration l'
           ∧ tm_spawnpoint tm = None ∧ tm_entry_warps tm = []).
Proof.
  intros Hreg.
  pose proof (load_map_refines_resolver l game_map_id from_map tm Hreg) as Href.
  simpl in Href. revert Href.
  rewrite (load_map_registered _ _ _ _ Hreg).
  destruct (resolve_spawn_only_trace (descriptor tm) game_map_id from_map
              (prepared tm l)) as [tr Htr].
  destruct (resolve_spawn_cases (prepared tm l) game_map_id from_map tm)
    as [p Ht Hw | p l' ws Hno Hs _ _ _ _ | k p rest l' ws Hno Hs He _ _ _ _
        | l' ws Hs He _ _ _ _]; simpl in *; intros Href.
  - left. exists p, tr. rewrite <- Htr. split; [done|].
    destruct (spawn_by_priority tm from_map); [|by destruct Href].
    destruct Href as (_ & <- & _). done.
  - left. exists p, tr. rewrite <- Htr. split; [done|].
    destruct (spawn_by_priority tm from_map); [|by destruct Href].
    destruct Href as (_ & <- & _). done.
  - left. exists p, tr. rewrite <- Htr. split; [done|].
    destruct (spawn_by_priority tm from_map); [|by destruct Href].
    destruct Href as (_ & <- & _). done.
  - right. eauto.
Qed.

(** The level a returning [load_map] leaves. *)
Lemma load_map_ok_state l game_map_id from_map l' :
  load_map game_map_id from_map l = Ok tt l' →
  ∃ tm p, registry_get (tmx_maps l) game_map_id = Some tm
    ∧ spawn_by_priority tm from_map = Some p
    ∧ current_map l' = game_map_id
    ∧ game_map l' = Some (descriptor tm)
    ∧ tree_sprites l' = tm_trees tm
    ∧ interaction_sprites l' = tm_interactions tm
    ∧ player_exit_warps l' = tm_exit_warps tm
    ∧ soil_layer l' = soil_reset (soil_layer l)
    ∧ cutscene_animation l'
      = scene_start (scene_setup tm (cutscene_animation l))
    ∧ player l' = teleport p (player l).
Proof.
  intros Hok.
  destruct (registry_get (tmx_maps l) game_map_id) as [tm|] eqn:Hreg.
  - destruct (load_map_registered_outcome l game_map_id from_map tm Hreg)
      as [(p & tr & Hload & Hp) | (l'' & Hload & _)];
      rewrite Hload in Hok; [|discriminate].
    injection Hok as <-. exists tm, p. simpl. by repeat split.
  - destruct (load_map_unregistered l game_map_id from_map Hreg)
      as (l'' & Hload & _). rewrite Hload in Hok. discriminate.
Qed.

(** X4.  When [load_map] returns, the level shows the new map and nothing of
    the old one: the map is current, the groups are exactly the new map's
    (trees as the map defines them, so earlier hits are gone), the soil is
    the old soil reset, the cutscene was set up for the map and started, and
    the player stands on the resolved spawn. *)
Theorem load_map_returns_loaded l game_map_id from_map l' :
  load_map game_map_id from_map l = Ok tt l' →
  ∃ tm p, registry_get (tmx_maps l) game_map_id = Some tm
    ∧ spawn_by_priority tm from_map = Some p
    ∧ current_map l' = game_map_id
    ∧ game_map l' = Some (descriptor tm)
    ∧ tree_sprites l' = tm_trees tm
    ∧ interaction_sprites l' = tm_interactions tm
    ∧ player_exit_warps l' = tm_exit_warps tm
    ∧ soil_layer l' = soil_reset (soil_layer l)
    ∧ cutscene_animation l'
      = scene_start (scene_setup tm (cutscene_animation l))
    ∧ player l' = teleport p (player l).
Proof.
  intros Hok.
  destruct (registry_get (tmx_maps l) game_map_id) as [tm|] eqn:Hreg.
  - destruct (load_map_registered_outcome l game_map_id from_map tm Hreg)
      as [(p & tr & Hload & Hp) | (l'' & Hload & _)];
      rewrite Hload in Hok; [|discriminate].
    injection Hok as <-. exists tm, p. simpl. by repeat split.
  - destruct (load_map_unregistered l game_map_id from_map Hreg)
      as (l'' & Hload & _). rewrite Hload in Hok. discriminate.
Qed.

(** X5.  While the current map is registered, [switch_to_map] never raises
    [KeyError], whatever the target: it loads the target if that is
    registered and the current map otherwise, and it fails only with
    [StopIteration], exactly when the map it loads has neither a default
    spawnpoint nor an entry warp. *)
Theorem switch_to_map_errors l map_name tm :
  registry_get (tmx_maps l) (current_map l) = Some tm →
  let out := switch_to_map map_name l in
  let dest := default tm (registry_get (tmx_maps l) map_name) in
  (returned out = false
   ↔ tm_spawnpoint dest = None ∧ tm_entry_warps dest = [])
  ∧ (returned out = false → ∃ l', out = Raise StopIteration l').
Proof.
  intros Hcur out dest. subst out dest.
  unfold switch_to_map, bind, gets, modify.
  destruct (registry_get (tmx_maps l) map_name) as [tm'|] eqn:Hreg; simpl.
  - destruct (load_map_registered_outcome l map_name (current_map l) tm' Hreg)
      as [(p & tr & -> & Hp) | (l' & -> & Hs & He)]; simpl.
    + split; [|done]. split; [done|]. intros [Hs He].
      unfold spawn_by_priority in Hp.
      rewrite Hs, He, dict_get_id_nil in Hp.
      destruct (truthy _); simpl in Hp; discriminate.
    + split; [by split|intros _; eauto].
  - set (warned := emit (EvWarn (MapNotFound map_name)) l).
    destruct (load_map_registered_outcome warned (current_map l) map_name tm
                Hcur) as [(p & tr & -> & Hp) | (l' & -> & Hs & He)]; simpl.
    + split; [|done]. split; [done|]. intros [Hs He].
      unfold spawn_by_priority in Hp.
      rewrite Hs, He, dict_get_id_nil in Hp.
      destruct (truthy _); simpl in Hp; discriminate.
    + split; [by split|intros _; eauto].
Qed.

(** ** The level keeps showing the map it names *)
















#[local] Instance same_but_world_preorder :
  PreOrder (@same_but_world Soil Scene).
Proof.
  split.
  - intros l. by repeat split.
  - intros l1 l2 l3 H1 H2. unfold same_but_world in *.
    destruct H1 as (?&?&?&?&?&?&?&?&?&?&?&?&?),
             H2 as (?&?&?&?&?&?&?&?&?&?&?&?&?).
    repeat split; congruence.
Qed.





(** ** Exit check and events *)

Lemma emitted_one e l : emitted l (emit e l) = [e].
Proof. by apply emitted_emit. Qed.

Lemma emitted_none l l' : trace l' = trace l → emitted l l' = [].
Proof. intros E. apply emitted_emit. by rewrite E, app_nil_r. Qed.

(** X7.  The exit check is idempotent: once it has registered a warp's
    target and activated the transition, checking again changes nothing, so
    a second warp under the player cannot replace the registered target
    while the transition runs. *)
Theorem check_map_exit_idempotent l :
  check_map_exit (check_map_exit l) = check_map_exit l.
Proof.
  destruct (active (map_transition l)) eqn:Hact.
  - unfold check_map_exit. rewrite Hact. simpl. by rewrite Hact.
  - destruct (spritecollide (overlaps_player l) (player_exit_warps l))
      as [|w ws] eqn:Hw.
    + assert (check_map_exit l = l) as Hid; [|by rewrite !Hid].
      unfold check_map_exit. rewrite Hact. simpl.
      by rewrite scan_exit_warps_first, Hw.
    + destruct (check_map_exit_activates l Hact) as (_ & target & Hmt).
      { by rewrite Hw. }
      unfold check_map_exit at 1. by rewrite Hmt.
Qed.

(** X8.  [handle_event] returns true exactly for a key press of escape, the
    hitbox key, the dialog key or the advance-dialog key; every event of
    another type, the start-quake signal included, returns false. *)
Theorem handle_event_consumed_iff event l :
  (handle_event event l).1 = true
  ↔ ∃ key, event = KEYDOWN key
           ∧ (key = K_ESCAPE
              ∨ key = DEBUG_SHOW_HITBOXES (controls (player l))
              ∨ key = SHOW_DIALOG (controls (player l))
              ∨ key = ADVANCE_DIALOG (controls (player l))).
Proof.
  unfold handle_event. destruct event as [key|d|ty]; simpl.
  - destruct (Z.eqb_spec key K_ESCAPE) as [->|H1]; simpl.
    { split; [eauto|done]. }
    destruct (Z.eqb_spec key (DEBUG_SHOW_HITBOXES (controls (player l))))
      as [->|H2]; simpl.
    { split; [eauto 6|done]. }
    destruct (Z.eqb_spec key (SHOW_DIALOG (controls (player l))))
      as [->|H3]; simpl.
    { split; [eauto 6|done]. }
    destruct (Z.eqb_spec key (ADVANCE_DIALOG (controls (player l))))
      as [->|H4]; simpl.
    { split; [eauto 7|done]. }
    split; [done|]. intros (k & [= <-] & [?|[?|[?|?]]]); done.
  - split; [done|]. by intros (k & ? & _).
  - split; [done|]. by intros (k & ? & _).
Qed.

(** X9.  An event has at most one effect: the level afterwards differs from
    the level before in the hitbox switch and the trace at most, the trace
    grows by at most one entry, and it does not grow when the hitbox switch
    flips.  Pressing the hitbox key (not bound to escape) twice gives back
    the level exactly. *)
Theorem handle_event_one_effect event l :
  let l' := (handle_event event l).2 in
  (∃ b, l' = with_trace (trace l') (set_show_hitbox_active b l))
  ∧ (length (emitted l l') ≤ 1)%nat
  ∧ (show_hitbox_active l' ≠ show_hitbox_active l → emitted l l' = [])
  ∧ (∀ key, event = KEYDOWN key → key ≠ K_ESCAPE →
            key = DEBUG_SHOW_HITBOXES (controls (player l)) →
            show_hitbox_active l' = negb (show_hitbox_active l)
            ∧ (handle_event event l').2 = l).
Proof.
  intros l'. subst l'. unfold handle_event.
  assert (∃ b, l = with_trace (trace l) (set_show_hitbox_active b l)) as Hl
    by (exists (show_hitbox_active l); by destruct l).
  destruct event as [key|d|ty]; simpl.
  - destruct (Z.eqb_spec key K_ESCAPE) as [->|H1]; simpl.
    { split; [exists (show_hitbox_active l); by destruct l|].
      rewrite emitted_one. split; [simpl; lia|]. split; [done|].
      intros key [= <-] ?. done. }
    destruct (Z.eqb_spec key (DEBUG_SHOW_HITBOXES (controls (player l))))
      as [->|H2]; simpl.
    { split; [by eexists|].
      rewrite emitted_none by done. simpl. split; [lia|]. split; [done|].
      intros key [= <-] _ _. split; [done|].
      rewrite ?(proj2 (Z.eqb_neq _ _) H1), ?Z.eqb_refl. simpl.
      rewrite negb_involutive. by destruct l. }
    destruct (Z.eqb_spec key (SHOW_DIALOG (controls (player l))))
      as [->|H3]; simpl.
    { split; [exists (show_hitbox_active l); by destruct l|].
      rewrite emitted_one. split; [simpl; lia|]. split; [done|].
      intros key [= <-] _ ?. done. }
    destruct (Z.eqb_spec key (ADVANCE_DIALOG (controls (player l))))
      as [->|H4]; simpl.
    { split; [exists (show_hitbox_active l); by destruct l|].
      rewrite emitted_one. split; [simpl; lia|]. split; [done|].
      intros key [= <-] _ ?. done. }
    split; [done|].
    rewrite emitted_none by done. simpl. split; [lia|].
    split; [done|]. intros key' [= <-] _ ?. done.
  - split; [exists (show_hitbox_active l); by destruct l|].
    rewrite emitted_one. split; [simpl; lia|]. split; [done|].
    intros key ?. discriminate.
  - split; [done|].
    rewrite emitted_none by done. simpl. split; [lia|]. split; [done|].
    intros key ?. discriminate.
Qed.

(** ** Tools and days, repeated *)

Lemma axe_collided_hit entity t :
  axe_collided entity (hit t) = axe_collided entity t.
Proof. reflexivity. Qed.









Lemma resets_snoc rs r l : resets (rs ++ [r]) l = reset r (resets rs l).
Proof. unfold resets. by rewrite foldl_app. Qed.

(** X12.  After [reset] has fired once for each of a list of draws, the day
    counter has grown by the number of firings, the rain flag is decided by
    the last draw alone, the player and the current map are untouched, and
    every tree keeps its place, hitbox, hits and life; if there was at least
    one firing, a tree that is not alive bears no fruit. *)
Theorem resets_days l rs :
  let l' := resets rs l in
  current_day l' = current_day l + Z.of_nat (length rs)
  ∧ (∀ rs0 r, rs = rs0 ++ [r] → raining l' = (r >? 7))
  ∧ player l' = player l
  ∧ current_map l' = current_map l
  ∧ length (tree_sprites l') = length (tree_sprites l)
  ∧ (∀ i t, tree_sprites l !! i = Some t →
       ∃ t', tree_sprites l' !! i = Some t'
         ∧ tree_hitbox_rect t' = tree_hitbox_rect t
         ∧ hits t' = hits t
         ∧ alive t' = alive t
         ∧ (rs ≠ [] → alive t = false → fruit_sprites t' = [])).
Proof.
  intros l'. subst l'.
  induction rs as [|r rs IH] using rev_ind.
  - simpl. split; [lia|]. split; [by intros [|] ? ?|].
    repeat split; try done. intros i t Hi. exists t. by repeat split.
  - rewrite resets_snoc. destruct IH as (Hd & _ & Hp & Hc & Hlen & Ht).
    split; [|split; [|split; [|split; [|split]]]].
    + simpl. rewrite Hd, length_app. simpl. lia.
    + intros rs0 r0 [_ [= <-]]%app_inj_tail. done.
    + done.
    + done.
    + simpl. by rewrite length_map.
    + intros i t Hi. destruct (Ht i t Hi) as (t' & Hi' & Hh & Hn & Ha & _).
      simpl. rewrite list_lookup_fmap, Hi'. simpl. eexists. split; [done|].
      unfold regrow. destruct t' as [hb [|] fr n]; simpl in *;
        repeat split; try done. intros _ Hdead. congruence.
Qed.

(** ** Frames *)

Lemma undrawn_emit e l : is_frame_output e = false → undrawn l (emit e l).
Proof. intros He. exists [e]. split; [done|]. by constructor. Qed.

Lemma undrawn_same l l' : trace l' = trace l → undrawn l l'.
Proof. intros E. exists []. by rewrite E, app_nil_r. Qed.

Ltac undrawn_step :=
  first [ by apply undrawn_emit | by apply undrawn_same
        | apply undrawn_same, on_transition_trace ].

Lemma resolve_spawn_undrawn gm game_map_id from_map :
  preserves (@undrawn Soil Scene) (resolve_spawn gm game_map_id from_map).
Proof.
  unfold resolve_spawn, entry_warp_spawn, default_spawn.
  steps fail undrawn_step.
Qed.

Lemma load_map_undrawn game_map_id from_map :
  preserves (@undrawn Soil Scene) (load_map game_map_id from_map).
Proof.
  unfold load_map. steps ltac:(apply resolve_spawn_undrawn) undrawn_step.
Qed.

Lemma switch_to_map_undrawn map_name :
  preserves (@undrawn Soil Scene) (switch_to_map map_name).
Proof.
  unfold switch_to_map.
  apply preserves_bind; [tc_solve|apply preserves_gets; tc_solve|intros reg].
  apply preserves_bind; [tc_solve|apply preserves_gets; tc_solve|intros cur].
  destruct (registry_get reg map_name); [apply load_map_undrawn|].
  apply preserves_bind; [tc_solve| |intros _; apply load_map_undrawn].
  apply preserves_modify. intros l. by apply undrawn_emit.
Qed.

Lemma run_callback_undrawn r c :
  preserves (@undrawn Soil Scene) (run_callback r c).
Proof.
  destruct c; simpl.
  - apply preserves_bind; [tc_solve|apply preserves_gets; tc_solve|].
    intros cur. apply switch_to_map_undrawn.
  - apply switch_to_map_undrawn.
  - apply preserves_modify. intros l. by apply undrawn_same.
  - apply preserves_modify. intros l. by apply undrawn_same.
Qed.

Lemma transition_update_undrawn w ms r :
  preserves (@undrawn Soil Scene) (transition_update w ms r).
Proof.
  unfold transition_update, advance.
  steps ltac:(apply run_callback_undrawn) undrawn_step.
Qed.

Lemma before_transitions_undrawn l :
  undrawn l (update_rain (check_map_exit l)).
Proof.
  transitivity (check_map_exit l).
  - apply undrawn_same, check_map_exit_trace.
  - unfold update_rain. destruct (raining _); [by apply undrawn_emit|].
    reflexivity.
Qed.





(** X14.  A frame that raises (a map switch fired by a transition failed)
    has neither moved nor drawn anything: no sprite, drop, quaker, camera or
    zoom update and no draw call is in its trace. *)
Theorem update_raise_undrawn l dt move_things ms r e l' :
  update dt move_things ms r l = Raise e l' →
  Forall (λ e, is_frame_output e = false) (emitted l l').
Proof.
  intros Hup. unfold update in Hup. rewrite !bind_modify in Hup.
  set (l1 := update_rain (check_map_exit l)) in *.
  assert (undrawn l l') as (evs & T & F).
  { transitivity l1; [apply before_transitions_undrawn|].
    unfold bind at 1 in Hup.
    pose proof (transition_update_undrawn Day ms r l1) as H2.
    destruct (transition_update Day ms r l1) as [[] l2|e2 l2] eqn:E2.
    - simpl in H2. transitivity l2; [done|].
      unfold bind at 1 in Hup.
      pose proof (transition_update_undrawn Map ms r l2) as H3.
      destruct (transition_update Map ms r l2) as [[] l3|e3 l3] eqn:E3.
      + destruct move_things; cbv [bind modify ret] in Hup; discriminate.
      + injection Hup as _ <-. exact H3.
    - injection Hup as _ <-. exact H2. }
  by rewrite (emitted_emit _ _ _ T).
Qed.


Lemma switch_to_map_registered l map_name tm :
  registry_get (tmx_maps l) map_name = Some tm →
  switch_to_map map_name l = load_map map_name (current_map l) l.
Proof. intros Hreg. unfold switch_to_map, bind, gets. by rewrite Hreg. Qed.

(** X16.  Leaving for a registered map and coming back starts the first map
    afresh: if both switches return, the first map is current again with its
    own descriptor and exit warps, its trees are as the map defines them
    (hits and fruit of the earlier visit are gone), the soil has been reset,
    and the player stands where the first map receives arrivals from the
    second. *)
Theorem switch_there_and_back l there tm_here tm_there l1 l2 :
  registry_get (tmx_maps l) (current_map l) = Some tm_here →
  registry_get (tmx_maps l) there = Some tm_there →
  switch_to_map there l = Ok tt l1 →
  switch_to_map (current_map l) l1 = Ok tt l2 →
  current_map l1 = there
  ∧ current_map l2 = current_map l
  ∧ game_map l2 = Some (descriptor tm_here)
  ∧ player_exit_warps l2 = tm_exit_warps tm_here
  ∧ tree_sprites l2 = tm_trees tm_here
  ∧ soil_layer l2 = soil_reset (soil_reset (soil_layer l))
  ∧ spawn_by_priority tm_here there = Some (pos (player l2)).
Proof.
  intros Hhere Hthere H1 H2.
  rewrite (switch_to_map_registered _ _ _ Hthere) in H1.
  destruct (load_map_ok_state _ _ _ _ H1)
    as (tm1 & p1 & Hr1 & _ & Hc1 & _ & _ & _ & _ & Hs1 & _).
  assert (tmx_maps l1 = tmx_maps l) as Hreg1.
  { pose proof (load_map_same_session there (current_map l) l) as Hss.
    rewrite H1 in Hss. apply Hss. }
  assert (registry_get (tmx_maps l1) (current_map l) = Some tm_here) as Hhere1
    by (by rewrite Hreg1).
  rewrite (switch_to_map_registered _ _ _ Hhere1) in H2.
  destruct (load_map_ok_state _ _ _ _ H2)
    as (tm2 & p2 & Hr2 & Hp2 & Hc2 & Hg2 & Ht2 & _ & Hw2 & Hs2 & _ & Hpl2).
  rewrite Hhere1 in Hr2. injection Hr2 as <-.
  split; [done|]. split; [done|]. split; [done|]. split; [done|].
  split; [done|]. split; [by rewrite Hs2, Hs1|].
  rewrite Hc1 in Hp2. rewrite Hp2, Hpl2. done.
Qed.

End LevelTheorems.

(** * The properties on the concrete world *)

(** Arriving on the farm from the forest uses the forest warp although the
    farm has a default spawnpoint; from the cellar, for which the farm has no
    warp, the default spawnpoint; the forest has no spawnpoint and gives its
    first warp; the cellar has neither and the load fails. *)
Lemma load_map_spawn_priority_witness :
  pos (player (final (load_map (Some "farm") (Some "forest") on_farm)))
    = (600, 200)
  ∧ pos (player (final (load_map (Some "farm") (Some "cellar") on_farm)))
    = (320, 240)
  ∧ pos (player (final (load_map (Some "forest") (Some "cellar") on_farm)))
    = (10, 400)
  ∧ returned (load_map (Some "cellar") None on_farm) = false.
Proof.
  split; [|split; [|split]].
  - refine (proj2 (proj1 (load_map_spawn_priority on_farm (Some "farm")
                            (Some "forest") farm _) (600, 200) _ _));
      vm_compute; reflexivity.
  - refine (proj2 (proj1 (proj2 (load_map_spawn_priority on_farm (Some "farm")
                            (Some "cellar") farm _)) (320, 240) _ _));
      vm_compute; auto.
  - refine (proj2 (proj1 (proj2 (proj2 (load_map_spawn_priority on_farm
                            (Some "forest") (Some "cellar") forest _)))
                     "farm" (10, 400) [("town", (790, 400))] _ _ _));
      vm_compute; auto.
  - refine (proj2 (proj2 (proj2 (proj2 (load_map_spawn_priority on_farm
                            (Some "cellar") None cellar _)))) _);
      vm_compute; auto.
Defined.

(** The farm's exit to the harbour leads nowhere: the farm stays current and
    the player lands on its default spawnpoint.  The forest is registered
    and is loaded with the farm as origin. *)
Lemma switch_to_map_fallback_witness :
  (current_map (final (switch_to_map (Some "harbour") on_farm)) = Some "farm"
   ∧ returned (switch_to_map (Some "harbour") on_farm) = true
   ∧ pos (player (final (switch_to_map (Some "harbour") on_farm)))
     = (320, 240))
  ∧ switch_to_map (Some "forest") on_farm
    = load_map (Some "forest") (Some "farm") on_farm.
Proof.
  pose proof (switch_to_map_fallback on_farm (Some "harbour")) as [Hmiss _].
  pose proof (switch_to_map_fallback on_farm (Some "forest")) as [_ Hreg].
  split.
  - destruct (Hmiss ltac:(vm_compute; reflexivity)) as (_ & _ & Hcur & Hpos).
    split; [exact Hcur|].
    exact (Hpos farm (320, 240) ltac:(vm_compute; reflexivity)
             ltac:(vm_compute; reflexivity)).
  - exact (Hreg forest ltac:(vm_compute; reflexivity)).
Defined.

(** Loading the forest from the cellar finds neither a warp for the cellar
    nor a default spawnpoint, and warns twice. *)
Lemma load_map_warnings_witness :
  warnings (emitted on_farm
              (final (load_map (Some "forest") (Some "cellar") on_farm)))
  = [NoEntryWarp (Some "forest") (Some "farm");
     NoDefaultSpawnpoint (Some "forest")]
  ∧ warnings (emitted on_farm
                (final (load_map (Some "farm") (Some "cellar") on_farm)))
    = [NoEntryWarp (Some "farm") (Some "farm")].
Proof.
  split.
  - refine (proj2 (proj2 (proj1 (proj2 (load_map_warnings on_farm
              (Some "forest") (Some "cellar") forest _))
              "farm" (10, 400) [("town", (790, 400))] _ _ _ _)));
      vm_compute; reflexivity.
  - refine (proj2 (proj1 (load_map_warnings on_farm
              (Some "farm") (Some "cellar") farm _) (320, 240) _ _ _));
      vm_compute; reflexivity.
Defined.

Lemma load_map_two_warnings : ¬ spec_one_warning_per_fallback.
Proof.
  intros H.
  specialize (H GridSoil nat grid_world on_farm (Some "forest")
                (Some "cellar") forest "farm" (10, 400)
                [("town", (790, 400))]
                ltac:(vm_compute; reflexivity) ltac:(vm_compute; reflexivity)
                ltac:(vm_compute; reflexivity) ltac:(vm_compute; reflexivity)).
  vm_compute in H. discriminate H.
Qed.

(** The woodcutter's axe reaches the first and the third tree of the farm:
    each is hit once, the second not at all, and two chop sounds play.  The
    villager's axe reaches the same trees in silence. *)
Lemma apply_tool_axe_witness :
  (hits <$> tree_sprites (apply_tool AXE (0, 0) woodcutter on_farm))
    !! 0%nat = Some 1%nat
  ∧ emitted on_farm (apply_tool AXE (0, 0) woodcutter on_farm)
    = [EvSound "axe"; EvSound "axe"]
  ∧ emitted on_farm (apply_tool AXE (0, 0) villager on_farm) = [].
Proof.
  destruct (apply_tool_axe on_farm (0, 0) woodcutter) as (Hhit & _ & Hsnd).
  destruct (apply_tool_axe on_farm (0, 0) villager) as (_ & _ & Hnpc).
  split; [|split].
  - destruct (Hhit 0%nat (mkTree (mkRect 100 100 20 20) true [(101, 101)] 0)
                ltac:(vm_compute; reflexivity)) as (tree' & Hl & _ & Hh).
    rewrite list_lookup_fmap, Hl. simpl. rewrite Hh. reflexivity.
  - exact Hsnd.
  - exact Hnpc.
Defined.

(** The player hears the watering can; a villager's watering is silent. *)
Lemma apply_tool_sound_gating_witness :
  sounds (emitted on_farm (apply_tool WATERING_CAN (3, 4) rabbit on_farm))
    = ["water"]
  ∧ sounds (emitted on_farm (apply_tool WATERING_CAN (3, 4) villager on_farm))
    = []
  ∧ sounds (emitted on_farm (apply_tool (OTHER 7) (3, 4) rabbit on_farm))
    = ["cant_plant"].
Proof.
  split; [|split].
  - exact (proj2 (proj2 (apply_tool_sound_gating on_farm (3, 4) rabbit
                           WATERING_CAN))).
  - exact (proj2 (proj2 (apply_tool_sound_gating on_farm (3, 4) villager
                           WATERING_CAN))).
  - exact (proj2 (proj2 (apply_tool_sound_gating on_farm (3, 4) rabbit
                           (OTHER 7)))).
Defined.

Lemma villager_waters_in_silence : ¬ spec_water_sound_unconditional.
Proof.
  intros H.
  specialize (H GridSoil nat grid_world on_farm (3, 4) villager).
  vm_compute in H. discriminate H.
Qed.

(** On the farm the rabbit stands on the bed and the trader at once; the bed
    comes first, so the day transition starts and no screen is switched. *)
Lemma interact_first_only_witness :
  interact on_farm = start_day_transition on_farm
  ∧ active (day_transition (interact on_farm)) = true
  ∧ emitted on_farm (interact on_farm) = [].
Proof.
  pose proof (interact_first_only on_farm) as H.
  vm_compute spritecollide in H.
  destruct H as (Hbed & _ & _).
  destruct (Hbed ltac:(vm_compute; reflexivity)) as (Heq & Hact & _).
  split; [exact Heq|]. split; [exact Hact|].
  rewrite Heq. vm_compute. reflexivity.
Defined.

(** A start-quake signal of 500 ms starts the quaker and is reported as not
    consumed. *)
Lemma handle_event_start_quake_witness :
  (handle_event (START_QUAKE 500) on_farm).1 = false
  ∧ emitted on_farm (handle_event (START_QUAKE 500) on_farm).2
    = [EvQuakerStart 500].
Proof.
  destruct (handle_event_start_quake on_farm 500) as (Heq & Hem & _).
  split; [by rewrite Heq|exact Hem].
Defined.

(** A draw of 9 brings rain on day 1; the two living trees of the farm carry
    the fruit just created and the dead one none. *)
Lemma reset_day_witness :
  current_day (reset 9 on_farm) = 1
  ∧ raining (reset 9 on_farm) = true
  ∧ (fruit_sprites <$> tree_sprites (reset 9 on_farm)) !! 0%nat
    = Some [(100, 100)]
  ∧ sky_time (sky (reset 9 on_farm)) = (6, 0).
Proof.
  destruct (reset_day on_farm 9)
    as (Hday & _ & Hrain & _ & _ & _ & Htree & Hsky).
  split; [exact Hday|]. split; [apply Hrain; lia|]. split; [|exact Hsky].
  destruct (Htree 0%nat (mkTree (mkRect 100 100 20 20) true [(101, 101)] 0)
              ltac:(vm_compute; reflexivity)) as (tree' & Hl & _ & Hf).
  rewrite list_lookup_fmap, Hl. simpl. rewrite Hf. reflexivity.
Defined.

(** In the farm's exit to the forest, walking east: the switch to the forest
    is registered, the transition runs, the player is blocked and stands
    still. *)
Lemma check_map_exit_first_overlap_witness :
  reset_cb (map_transition (check_map_exit at_forest_exit))
    = CbSwitchToMap (Some "forest")
  ∧ active (map_transition (check_map_exit at_forest_exit)) = true
  ∧ blocked (player (check_map_exit at_forest_exit)) = true
  ∧ direction (player (check_map_exit at_forest_exit)) = (0, 0).
Proof.
  pose proof (proj2 (check_map_exit_first_overlap at_forest_exit)
                ltac:(vm_compute; reflexivity)) as H.
  vm_compute spritecollide in H.
  destruct H as (Hcb & Hact & Hb & Hd & _).
  repeat split; assumption.
Defined.

Lemma exit_check_stops_the_player : ¬ spec_exit_check_three_effects.
Proof.
  intros H.
  specialize (H GridSoil nat grid_world at_forest_exit
                (mkSprite "forest" (mkRect 630 0 10 480)) []
                ltac:(vm_compute; reflexivity) ltac:(vm_compute; reflexivity)).
  apply (f_equal (λ l, direction (player l))) in H.
  vm_compute in H. discriminate H.
Qed.

(** The frame in which the rabbit enters the exit: both transitions are
    updated before the sprites, and the sprites are updated with the player
    already blocked. *)
Lemma update_order_and_blocking_witness :
  ∃ before sprites after,
    emitted at_forest_exit (final (update 16 true 16 0 at_forest_exit))
    = before ++ sprites :: after
    ∧ EvTransitionUpdate Day ∈ before
    ∧ EvTransitionUpdate Map ∈ before
    ∧ (sprites = EvSpritesUpdateBlocked ∨ sprites = EvSpritesUpdate true).
Proof.
  assert (update 16 true 16 0 at_forest_exit
          = Ok tt (final (update 16 true 16 0 at_forest_exit))) as Hrun
    by (vm_compute; reflexivity).
  destruct (update_order_and_blocking at_forest_exit 16 16 0 _ Hrun)
    as (before & sprites & after & Hem & Hday & Hmap & _ & _ & Hblocked).
  exists before, sprites, after.
  split; [exact Hem|]. split; [exact Hday|]. split; [exact Hmap|].
  apply Hblocked.
  - vm_compute; reflexivity.
  - vm_compute; discriminate.
  - vm_compute; reflexivity.
  - vm_compute; reflexivity.
  - vm_compute; reflexivity.
Defined.

Lemma blocked_in_the_same_tick : ¬ spec_blocked_from_next_tick.
Proof.
  intros H.
  specialize (H GridSoil nat grid_world at_forest_exit
                (final (update 16 true 16 0 at_forest_exit)) 16 16 0
                ltac:(vm_compute; reflexivity) ltac:(vm_compute; reflexivity)
                ltac:(vm_compute; discriminate)
                ltac:(vm_compute; reflexivity)).
  apply H. vm_compute emitted.
  do 2 right. by left.
Qed.

(** ** Further properties on the concrete world *)

(** No harbour is registered: the load raises and leaves the farm without
    trees, still named as the current map. *)
Lemma load_map_unregistered_clears_witness :
  ∃ l', load_map (Some "harbour") None on_farm
        = Raise (KeyError (Some "harbour")) l'
        ∧ tree_sprites l' = [] ∧ current_map l' = Some "farm".
Proof.
  destruct (load_map_unregistered_clears on_farm (Some "harbour") None
              ltac:(vm_compute; reflexivity))
    as (l' & Hload & Ht & _ & _ & _ & _ & Hc & _).
  exists l'. split; [exact Hload|]. split; [exact Ht|].
  rewrite Hc. vm_compute. reflexivity.
Defined.

(** The cellar has no spawn: the load raises with the cellar's (empty) exit
    warps in place and the farm still current. *)
Lemma load_map_no_spawn_half_loaded_witness :
  ∃ l', load_map (Some "cellar") (Some "farm") on_farm = Raise StopIteration l'
        ∧ game_map l' = Some (descriptor cellar)
        ∧ current_map l' = Some "farm".
Proof.
  destruct (load_map_no_spawn_half_loaded on_farm (Some "cellar")
              (Some "farm") cellar ltac:(vm_compute; reflexivity)
              ltac:(reflexivity) ltac:(reflexivity))
    as (l' & Hload & _ & _ & _ & Hg & _ & Hc & _).
  exists l'. split; [exact Hload|]. split; [exact Hg|].
  rewrite Hc. vm_compute. reflexivity.
Defined.

(** Loading the forest from the farm: the forest is current, with its
    single exit warp and no trees. *)
Lemma load_map_returns_loaded_witness :
  current_map (final (load_map (Some "forest") (Some "farm") on_farm))
    = Some "forest"
  ∧ tree_sprites (final (load_map (Some "forest") (Some "farm") on_farm)) = [].
Proof.
  assert (load_map (Some "forest") (Some "farm") on_farm
          = Ok tt (final (load_map (Some "forest") (Some "farm") on_farm)))
    as Hrun by (vm_compute; reflexivity).
  destruct (load_map_returns_loaded _ _ _ _ Hrun)
    as (tm & p & Hreg & _ & Hc & _ & Ht & _).
  split; [exact Hc|]. rewrite Ht.
  assert (Some tm = Some forest) as [= ->]
    by (rewrite <- Hreg; vm_compute; reflexivity).
  reflexivity.
Defined.

(** From the farm, a switch to the cellar fails for lack of a spawn and a
    switch to the unregistered harbour returns. *)
Lemma switch_to_map_errors_witness :
  returned (switch_to_map (Some "cellar") on_farm) = false
  ∧ returned (switch_to_map (Some "harbour") on_farm) = true.
Proof.
  split.
  - apply (proj1 (switch_to_map_errors on_farm (Some "cellar") farm
                    ltac:(vm_compute; reflexivity))).
    vm_compute. split; reflexivity.
  - destruct (returned (switch_to_map (Some "harbour") on_farm)) eqn:E;
      [reflexivity|].
    apply (proj1 (switch_to_map_errors on_farm (Some "harbour") farm
                    ltac:(vm_compute; reflexivity))) in E.
    vm_compute in E. destruct E as [E _]. discriminate E.
Defined.



(** The frame in which the transition fires a switch to the cellar raises,
    and nothing was moved or drawn in it. *)
Lemma update_raise_undrawn_witness :
  Forall (λ e, is_frame_output e = false)
    (emitted (leaving_for "cellar")
             (final (update 16 true 16 0 (leaving_for "cellar")))).
Proof.
  assert (update 16 true 16 0 (leaving_for "cellar")
          = Raise StopIteration
              (final (update 16 true 16 0 (leaving_for "cellar"))))
    as Hrun by (vm_compute; reflexivity).
  exact (update_raise_undrawn _ _ _ _ _ _ _ Hrun).
Defined.


(** To the forest and back: the farm is current again and the rabbit stands
    on the farm's warp for arrivals from the forest. *)
Lemma switch_there_and_back_witness :
  ∃ l2 : @Level GridSoil nat,
    current_map l2 = Some "farm"
    ∧ spawn_by_priority farm (Some "forest") = Some (pos (player l2)).
Proof.
  assert (switch_to_map (Some "forest") on_farm
          = Ok tt (final (switch_to_map (Some "forest") on_farm)))
    as H1 by (vm_compute; reflexivity).
  assert (switch_to_map (current_map on_farm)
            (final (switch_to_map (Some "forest") on_farm))
          = Ok tt (final (switch_to_map (current_map on_farm)
                     (final (switch_to_map (Some "forest") on_farm)))))
    as H2 by (vm_compute; reflexivity).
  destruct (switch_there_and_back on_farm (Some "forest") farm forest _ _
              ltac:(vm_compute; reflexivity) ltac:(vm_compute; reflexivity)
              H1 H2) as (_ & Hc & _ & _ & _ & _ & Hp).
  eexists. split; [|exact Hp]. rewrite Hc. vm_compute. reflexivity.
Defined.
